(** * mongoimport/tsv.go: the TSV input reader

    A shallow embedding of [TSVInputReader]: its constructor, the header
    reader and the two goroutines of [StreamDocument], together with the Go
    library pieces they run on ([bufio.Reader.ReadString], [strings.Split],
    [strings.TrimRight], channels). *)

From Stdlib Require Import ZArith Lia Ascii String DecimalString.
From stdpp Require Import base option list gmap strings.

Open Scope Z_scope.

(** ** Go strings and errors *)

(** A Go [string] is a sequence of bytes. *)
Definition gostring : Type := list ascii.

Definition str (s : string) : gostring := list_ascii_of_string s.

Definition LF : ascii := "010"%char.
Definition CR : ascii := "013"%char.
Definition TAB : ascii := "009"%char.

(** tsv.go, lines 11-14. *)
Definition entryDelimiter : ascii := LF.
Definition tokenSeparator : ascii := TAB.

(** The errors an [io.Reader] reports: [io.EOF], or any other failure with
    its [Error()] text. *)
Inductive goerror : Type :=
  | EOF
  | ErrorString (msg : gostring).

Definition Error (e : goerror) : gostring :=
  match e with
  | EOF => str "EOF"
  | ErrorString msg => msg
  end.

Definition is_EOF (e : goerror) : bool :=
  match e with EOF => true | ErrorString _ => false end.

(** [io.ErrNoProgress], which [bufio] reports when its reader keeps
    returning neither data nor an error. *)
Definition ErrNoProgress : goerror :=
  ErrorString (str "multiple Read calls return no data or error").

(** ** Machine integers *)

Definition uint64_incr (n : Z) : Z := (n + 1) mod 2 ^ 64.

Definition int64_add (a b : Z) : Z := (a + b + 2 ^ 63) mod 2 ^ 64 - 2 ^ 63.

(** [%v] of an unsigned integer: its decimal digits. *)
Definition format_uint (n : Z) : gostring :=
  str (NilEmpty.string_of_uint (N.to_uint (Z.to_N n))).

(** ** The byte stream and the readers over it *)

(** The [io.Reader] handed to [NewTSVInputReader]: the bytes it has yet to
    deliver, how many it has delivered so far, and the error it reports once
    they are exhausted. *)
Record Input : Type := mkInput {
  pending : gostring;
  offset : nat;
  ending : goerror
}.

(** [in.Read(p)] with [len(p) = n]. *)
Definition Input_Read (n : nat) (i : Input) : (gostring * option goerror) * Input :=
  match pending i with
  | [] => (([], Some (ending i)), i)
  | _ :: _ =>
      let data := take n (pending i) in
      ((data, None),
       {| pending := drop n (pending i);
          offset := (offset i + length data)%nat;
          ending := ending i |})
  end.

(** The heap cells the reader's pointers lead to: the stream [in] and the
    [bytesRead] counter of the [sizeTrackingReader] allocated by
    [NewTSVInputReader]. *)
Record Store : Type := mkStore {
  inp : Input;
  bytesRead : Z
}.

(** An [io.Reader] value in this program: the stream itself, or the
    [sizeTrackingReader] wrapped around it. *)
Inductive ReaderRef : Type :=
  | RefIn
  | RefSzCount.

(** Modelled from the spec: the byte-counting wrapper [sizeTrackingReader]
    (its declaration is not part of tsv.go). Its [Read] forwards to the
    wrapped reader and adds the number of bytes obtained to [bytesRead];
    [Size] reports the counter. *)
Definition sizeTrackingReader_Read (n : nat) (h : Store)
  : (gostring * option goerror) * Store :=
  let '((data, e), i') := Input_Read n (inp h) in
  ((data, e),
   {| inp := i'; bytesRead := int64_add (bytesRead h) (Z.of_nat (length data)) |}).

Definition Size (h : Store) : Z := bytesRead h.

Definition Read (r : ReaderRef) (n : nat) (h : Store)
  : (gostring * option goerror) * Store :=
  match r with
  | RefIn =>
      let '(res, i') := Input_Read n (inp h) in
      (res, {| inp := i'; bytesRead := bytesRead h |})
  | RefSzCount => sizeTrackingReader_Read n h
  end.

(** ** bufio.Reader *)

(** [buf] is the buffered, not yet returned part ([b.buf[b.r:b.w]]);
    [lasterr] is the latched [b.err]. *)
Record bufioReader : Type := mkBufio {
  rd : ReaderRef;
  buf : gostring;
  lasterr : option goerror
}.

Definition defaultBufSize : nat := 4096.

Definition bufio_NewReader (r : ReaderRef) : bufioReader :=
  {| rd := r; buf := []; lasterr := None |}.

(** [bytes.IndexByte]. *)
Fixpoint IndexByte (s : gostring) (c : ascii) : option nat :=
  match s with
  | [] => None
  | x :: s' => if decide (x = c) then Some 0%nat else S <$> IndexByte s' c
  end.

(** The loop of [ReadSlice] inside [collectFragments]: fragments of a line
    longer than the buffer are accumulated in [acc]. One unit of [fuel] is
    spent per turn that does not return. *)
Fixpoint readFragments (fuel : nat) (delim : ascii) (acc : gostring)
    (b : bufioReader) (h : Store)
  : (gostring * option goerror) * bufioReader * Store :=
  match IndexByte (buf b) delim with
  | Some i =>
      ((acc ++ take (S i) (buf b), None),
       {| rd := rd b; buf := drop (S i) (buf b); lasterr := lasterr b |}, h)
  | None =>
      match lasterr b with
      | Some e =>
          ((acc ++ buf b, Some e), {| rd := rd b; buf := []; lasterr := None |}, h)
      | None =>
          match fuel with
          | O =>
              ((acc ++ buf b, Some ErrNoProgress),
               {| rd := rd b; buf := []; lasterr := None |}, h)
          | S fuel' =>
              if (defaultBufSize <=? length (buf b))%nat then
                readFragments fuel' delim (acc ++ buf b)
                  {| rd := rd b; buf := []; lasterr := None |} h
              else
                let '((data, e), h') :=
                  Read (rd b) (defaultBufSize - length (buf b))%nat h in
                readFragments fuel' delim acc
                  {| rd := rd b; buf := buf b ++ data; lasterr := e |} h'
          end
      end
  end.

(** [b.ReadString(delim)]. The stream holds finitely many bytes, so the
    loop is given more turns than it can use. *)
Definition ReadString (delim : ascii) (b : bufioReader) (h : Store)
  : (gostring * option goerror) * bufioReader * Store :=
  readFragments (2 * length (pending (inp h)) + 3) delim [] b h.

(** ** strings.Split and strings.TrimRight *)

(** [strings.Split(s, sep)] for a one-byte separator: the pieces of [s]
    between the occurrences of [sep], one more than there are occurrences. *)
Fixpoint Split (s : gostring) (sep : ascii) : list gostring :=
  match s with
  | [] => [[]]
  | c :: s' =>
      if decide (c = sep) then [] :: Split s' sep
      else match Split s' sep with
           | tok :: rest => (c :: tok) :: rest
           | [] => [[c]]
           end
  end.

(** [strings.TrimRight(s, cutset)]: [s] without its longest suffix made of
    bytes of [cutset]. *)
Fixpoint TrimRight (s : gostring) (cutset : gostring) : gostring :=
  match s with
  | [] => []
  | c :: s' =>
      match TrimRight s' cutset with
      | [] => if bool_decide (c ∈ cutset) then [] else [c]
      | t => c :: t
      end
  end.

Definition crlf : gostring := [CR; LF].

(** ** The reader *)

(** tsv.go, lines 18-37. The embedded [sizeTracker] is the pointer to the
    [sizeTrackingReader] of the store; [Size] reads its counter. *)
Record TSVInputReader : Type := mkTSVInputReader {
  fields : list gostring;
  tsvReader : bufioReader;
  tsvRecord : gostring;
  numProcessed : Z;
  numDecoders : Z
}.

(** tsv.go, lines 40-44. *)
Module TSVConverter.
Record t : Type := mk {
  fields : list gostring;
  data : gostring;
  index : Z
}.
End TSVConverter.

(** tsv.go, lines 48-57: [szCount] wraps [in] with a zero counter, and the
    buffered reader is built over [in]. *)
Definition NewTSVInputReader (fs : list gostring) (i : Input) (n : Z)
  : TSVInputReader * Store :=
  let szCount := {| inp := i; bytesRead := 0 |} in
  ({| fields := fs;
      tsvReader := bufio_NewReader RefIn;
      tsvRecord := [];
      numProcessed := 0;
      numDecoders := n |},
   szCount).

Definition with_tsvReader (b : bufioReader) (r : TSVInputReader) : TSVInputReader :=
  {| fields := fields r; tsvReader := b; tsvRecord := tsvRecord r;
     numProcessed := numProcessed r; numDecoders := numDecoders r |}.

Definition with_fields (fs : list gostring) (r : TSVInputReader) : TSVInputReader :=
  {| fields := fs; tsvReader := tsvReader r; tsvRecord := tsvRecord r;
     numProcessed := numProcessed r; numDecoders := numDecoders r |}.

Definition with_tsvRecord (s : gostring) (r : TSVInputReader) : TSVInputReader :=
  {| fields := fields r; tsvReader := tsvReader r; tsvRecord := s;
     numProcessed := numProcessed r; numDecoders := numDecoders r |}.

Definition with_numProcessed (n : Z) (r : TSVInputReader) : TSVInputReader :=
  {| fields := fields r; tsvReader := tsvReader r; tsvRecord := tsvRecord r;
     numProcessed := n; numDecoders := numDecoders r |}.

(** The bytes the reader has not returned yet: those buffered and those
    still in the stream. *)
Definition unread (r : TSVInputReader) (h : Store) : gostring :=
  buf (tsvReader r) ++ pending (inp h).

(** tsv.go, line 89. *)
Definition read_error (n : Z) (err : goerror) : goerror :=
  ErrorString (str "read error on entry #" ++ format_uint n ++ str ": " ++ Error err).

(** ** Channels *)

Inductive Result (A : Type) : Type :=
  | Ok (a : A)
  | Blocked
  | Panic.
Arguments Ok {A} a.
Arguments Blocked {A}.
Arguments Panic {A}.

Record Chan (A : Type) : Type := mkChan {
  queue : list A;
  capacity : nat;
  closed : bool
}.
Arguments mkChan {A}.
Arguments queue {A}.
Arguments capacity {A}.
Arguments closed {A}.

(** [make(chan A, n)]; a negative size panics. *)
Definition make_chan {A} (n : Z) : option (Chan A) :=
  if n <? 0 then None
  else Some {| queue := []; capacity := Z.to_nat n; closed := false |}.

(** [ch <- x] into the buffer: it waits while the buffer is full and panics
    on a closed channel. *)
Definition chan_send {A} (x : A) (c : Chan A) : Result (Chan A) :=
  if closed c then Panic
  else if (length (queue c) <? capacity c)%nat
       then Ok {| queue := queue c ++ [x]; capacity := capacity c; closed := false |}
       else Blocked.

(** [close(ch)]. *)
Definition chan_close {A} (c : Chan A) : Result (Chan A) :=
  if closed c then Panic
  else Ok {| queue := queue c; capacity := capacity c; closed := true |}.

(** [x, ok := <-ch]: the oldest buffered value, or [None] once the channel
    is closed and drained. *)
Definition chan_recv {A} (c : Chan A) : Result (option A * Chan A) :=
  match queue c with
  | x :: q => Ok (Some x, {| queue := q; capacity := capacity c; closed := closed c |})
  | [] => if closed c then Ok (None, c) else Blocked
  end.

(** ** The pipeline of StreamDocument *)

Inductive Stage : Type :=
  | ReadStage
  | DecodeStage.

(** Where the reading goroutine (tsv.go, lines 79-100) stands. Each step
    runs its thread-local statements up to and including the next channel
    operation or read. *)
Inductive ReaderPC : Type :=
  | PCRead                            (* line 82: about to call ReadString *)
  | PCClose (err : goerror)           (* line 84: the read failed with err *)
  | PCSignal (e : option goerror)     (* lines 86 and 89: tsvErrChan <- e *)
  | PCSend (c : TSVConverter.t)       (* line 93: tsvRecordChan <- c *)
  | PCDone.                           (* line 91: returned *)

Inductive Worker : Type :=
  | Idle
  | Busy (c : TSVConverter.t)
  | Exited.

(** The choices of the scheduler: which goroutine moves next. *)
Inductive Action : Type :=
  | ActReader
  | ActWorker (w : nat)
  | ActHandoff (w : nat)
  | ActMerger
  | ActDecodeReturn.

(** tsv.go, line 107: the number of signals StreamDocument waits for. *)
Definition quorum : nat := 2.

Section Pipeline.

(** [bson.D], and the two functions of the package that tsv.go calls but
    does not define. *)
Variable bsonD : Type.
Variable tokensToBSON : list gostring -> list gostring -> Z -> bsonD * option goerror.
Variable validateReaderFields : list gostring -> option goerror.

(** tsv.go, lines 60-69. *)
Definition ReadAndValidateHeader (r : TSVInputReader) (h : Store)
  : option goerror * TSVInputReader * Store :=
  let '((header, err), b', h') := ReadString entryDelimiter (tsvReader r) h in
  let r' := with_tsvReader b' r in
  match err with
  | Some e => (Some e, r', h')
  | None =>
      let fs :=
        fold_left (fun acc field => acc ++ [TrimRight field crlf])
                  (Split header tokenSeparator) (fields r') in
      (validateReaderFields fs, with_fields fs r', h')
  end.

(** tsv.go, lines 112-118. *)
Definition Convert (t : TSVConverter.t) : bsonD * option goerror :=
  tokensToBSON (TSVConverter.fields t)
               (Split (TrimRight (TSVConverter.data t) crlf) tokenSeparator)
               (TSVConverter.index t).

Record ConversionOutcome : Type := mkOutcome {
  seq : Z;
  result : bsonD * option goerror
}.

Definition outcome_of (c : TSVConverter.t) : ConversionOutcome :=
  {| seq := TSVConverter.index c; result := Convert c |}.

Inductive Event : Type :=
  | EvSend (c : TSVConverter.t)                 (* a record entered tsvRecordChan *)
  | EvClose                                     (* close(tsvRecordChan) *)
  | EvSignal (s : Stage) (e : option goerror)   (* a terminal signal on tsvErrChan *)
  | EvRecv (w : nat) (c : TSVConverter.t)       (* worker w took a record *)
  | EvOutcome (o : ConversionOutcome).          (* an outcome reached the consumer *)

(** Modelled from the spec: the decode stage [streamDocuments] (Decode
    Worker Pool and Order-Preserving Merger of sections 4.2 and 4.3), which
    tsv.go calls but does not define. [workers] holds the N workers,
    [results] the unordered output of the workers, [cursor] and [reorder]
    the next expected index and the buffer of the ordered merger. *)
Record Decode : Type := mkDecode {
  workers : list Worker;
  results : list ConversionOutcome;
  cursor : Z;
  reorder : gmap Z ConversionOutcome
}.

Definition streamDocuments_init (n : Z) : Decode :=
  {| workers := replicate (Z.to_nat n) Idle; results := []; cursor := 0; reorder := ∅ |}.

(** Modelled from the spec: the ordered merger's flush of section 4.3,
    emitting the buffered outcomes that are contiguous with the cursor. *)
Fixpoint flush (fuel : nat) (cur : Z) (m : gmap Z ConversionOutcome)
  : list ConversionOutcome * Z * gmap Z ConversionOutcome :=
  match fuel with
  | O => ([], cur, m)
  | S fuel' =>
      match m !! cur with
      | Some o =>
          let '(os, cur', m') := flush fuel' (uint64_incr cur) (delete cur m) in
          (o :: os, cur', m')
      | None => ([], cur, m)
      end
  end.

(** Modelled from the spec: one outcome taken by the merger (section 4.3).
    It returns the outcomes forwarded to the output stream. *)
Definition merge (ordered : bool) (o : ConversionOutcome) (d : Decode)
  : list ConversionOutcome * Decode :=
  if ordered then
    if decide (seq o = cursor d) then
      let '(os, cur', m') := flush (size (reorder d)) (uint64_incr (cursor d)) (reorder d) in
      (o :: os, {| workers := workers d; results := results d; cursor := cur'; reorder := m' |})
    else
      ([], {| workers := workers d; results := results d; cursor := cursor d;
              reorder := <[seq o := o]> (reorder d) |})
  else ([o], d).

Definition all_exited (ws : list Worker) : bool :=
  forallb (fun w => match w with Exited => true | _ => false end) ws.

(** Modelled from the spec: the Quorum Error Aggregator
    [channelQuorumError] of section 4.4, which tsv.go calls but does not
    define. It takes [n] signals from the channel; the result is the first
    error among them, or nil. *)
Definition first_error (signals : list (option goerror)) : option goerror :=
  match filter is_Some signals with
  | e :: _ => e
  | [] => None
  end.

Definition channelQuorumError (signals : list (option goerror)) (n : nat)
  : option (option goerror) :=
  if (n <=? length signals)%nat then Some (first_error signals) else None.

(** The goroutines of one call of StreamDocument and what they share.
    [tsvErrChan] lists the signals the aggregator has received on the
    unbuffered error channel; [trace] is the history of the run. *)
Record State : Type := mkState {
  reader : TSVInputReader;
  heap : Store;
  pc : ReaderPC;
  tsvRecordChan : Chan TSVConverter.t;
  pool : Decode;
  decodeDone : bool;
  tsvErrChan : list (option goerror);
  trace : list Event
}.

(** tsv.go, lines 75-76 and 79, 103: the channels are made and the two
    goroutines are started. *)
Definition StreamDocument (r : TSVInputReader) (h : Store) : option State :=
  ch ← make_chan (numDecoders r);
  Some {| reader := r; heap := h; pc := PCRead; tsvRecordChan := ch;
          pool := streamDocuments_init (numDecoders r); decodeDone := false;
          tsvErrChan := []; trace := [] |}.

(** tsv.go, line 107: what StreamDocument returns, once the quorum is
    reached. *)
Definition retErr (st : State) : option (option goerror) :=
  channelQuorumError (tsvErrChan st) quorum.

(** A send on the unbuffered [tsvErrChan] completes when the aggregator
    takes it. *)
Definition signal (s : Stage) (e : option goerror) (st : State)
  : Result (list (option goerror) * list Event) :=
  if (length (tsvErrChan st) <? quorum)%nat
  then Ok (tsvErrChan st ++ [e], trace st ++ [EvSignal s e])
  else Blocked.

Definition set_worker (w : nat) (x : Worker) (d : Decode) : Decode :=
  {| workers := <[w := x]> (workers d); results := results d;
     cursor := cursor d; reorder := reorder d |}.

(** The reading goroutine, tsv.go lines 79-100. *)
Definition reader_step (st : State) : Result State :=
  match pc st with
  | PCRead =>
      let '((line, err), b', h') :=
        ReadString entryDelimiter (tsvReader (reader st)) (heap st) in
      let r' := with_tsvRecord line (with_tsvReader b' (reader st)) in
      let next :=
        match err with
        | Some e => PCClose e
        | None =>
            PCSend {| TSVConverter.fields := fields r';
                      TSVConverter.data := tsvRecord r';
                      TSVConverter.index := numProcessed r' |}
        end in
      Ok {| reader := r'; heap := h'; pc := next;
            tsvRecordChan := tsvRecordChan st; pool := pool st;
            decodeDone := decodeDone st; tsvErrChan := tsvErrChan st;
            trace := trace st |}
  | PCClose err =>
      match chan_close (tsvRecordChan st) with
      | Ok ch =>
          let '(r', e) :=
            if is_EOF err then (reader st, None)
            else
              let r' := with_numProcessed (uint64_incr (numProcessed (reader st)))
                                          (reader st) in
              (r', Some (read_error (numProcessed r') err)) in
          Ok {| reader := r'; heap := heap st; pc := PCSignal e;
                tsvRecordChan := ch; pool := pool st;
                decodeDone := decodeDone st; tsvErrChan := tsvErrChan st;
                trace := trace st ++ [EvClose] |}
      | Blocked => Blocked
      | Panic => Panic
      end
  | PCSignal e =>
      match signal ReadStage e st with
      | Ok (sigs, tr) =>
          Ok {| reader := reader st; heap := heap st; pc := PCDone;
                tsvRecordChan := tsvRecordChan st; pool := pool st;
                decodeDone := decodeDone st; tsvErrChan := sigs; trace := tr |}
      | Blocked => Blocked
      | Panic => Panic
      end
  | PCSend c =>
      match chan_send c (tsvRecordChan st) with
      | Ok ch =>
          Ok {| reader := with_numProcessed (uint64_incr (numProcessed (reader st)))
                                            (reader st);
                heap := heap st; pc := PCRead;
                tsvRecordChan := ch; pool := pool st;
                decodeDone := decodeDone st; tsvErrChan := tsvErrChan st;
                trace := trace st ++ [EvSend c] |}
      | Blocked => Blocked
      | Panic => Panic
      end
  | PCDone => Blocked
  end.

Variable ordered : bool.

(** Modelled from the spec: a decode worker (section 4.2). An idle worker
    takes the next record, or exits once the queue is closed and empty; a
    busy worker converts its record and queues the outcome. *)
Definition worker_step (w : nat) (st : State) : Result State :=
  match workers (pool st) !! w with
  | Some Idle =>
      match chan_recv (tsvRecordChan st) with
      | Ok (Some c, ch) =>
          Ok {| reader := reader st; heap := heap st; pc := pc st;
                tsvRecordChan := ch; pool := set_worker w (Busy c) (pool st);
                decodeDone := decodeDone st; tsvErrChan := tsvErrChan st;
                trace := trace st ++ [EvRecv w c] |}
      | Ok (None, ch) =>
          Ok {| reader := reader st; heap := heap st; pc := pc st;
                tsvRecordChan := ch; pool := set_worker w Exited (pool st);
                decodeDone := decodeDone st; tsvErrChan := tsvErrChan st;
                trace := trace st |}
      | Blocked => Blocked
      | Panic => Panic
      end
  | Some (Busy c) =>
      let d := set_worker w Idle (pool st) in
      Ok {| reader := reader st; heap := heap st; pc := pc st;
            tsvRecordChan := tsvRecordChan st;
            pool := {| workers := workers d; results := results d ++ [outcome_of c];
                       cursor := cursor d; reorder := reorder d |};
            decodeDone := decodeDone st; tsvErrChan := tsvErrChan st;
            trace := trace st |}
  | Some Exited => Blocked
  | None => Blocked
  end.

(** A send that meets a waiting receiver: the record passes from the
    reading goroutine to an idle worker without entering the buffer, which
    is how a send completes on a channel of capacity 0. *)
Definition handoff_step (w : nat) (st : State) : Result State :=
  match pc st, workers (pool st) !! w, queue (tsvRecordChan st) with
  | PCSend c, Some Idle, [] =>
      if closed (tsvRecordChan st) then Panic
      else
        Ok {| reader := with_numProcessed (uint64_incr (numProcessed (reader st)))
                                          (reader st);
              heap := heap st; pc := PCRead;
              tsvRecordChan := tsvRecordChan st;
              pool := set_worker w (Busy c) (pool st);
              decodeDone := decodeDone st; tsvErrChan := tsvErrChan st;
              trace := trace st ++ [EvSend c; EvRecv w c] |}
  | _, _, _ => Blocked
  end.

(** Modelled from the spec: the merger takes the oldest outcome of the
    workers and forwards what its mode allows (section 4.3). *)
Definition merger_step (st : State) : Result State :=
  match results (pool st) with
  | o :: rest =>
      let d := {| workers := workers (pool st); results := rest;
                  cursor := cursor (pool st); reorder := reorder (pool st) |} in
      let '(os, d') := merge ordered o d in
      Ok {| reader := reader st; heap := heap st; pc := pc st;
            tsvRecordChan := tsvRecordChan st; pool := d';
            decodeDone := decodeDone st; tsvErrChan := tsvErrChan st;
            trace := trace st ++ (EvOutcome <$> os) |}
  | [] => Blocked
  end.

(** tsv.go, lines 103-105, with the end of [streamDocuments] modelled from
    the spec (section 4.3, Termination): once every worker has exited and
    every outcome has been forwarded, the stage returns and its goroutine
    sends the result on [tsvErrChan]. Conversion errors travel in the
    outcomes and do not fail the stage (section 7). *)
Definition decode_return_step (st : State) : Result State :=
  if decodeDone st then Blocked
  else if all_exited (workers (pool st))
          && bool_decide (results (pool st) = [])
          && bool_decide (reorder (pool st) = ∅)
  then
    match signal DecodeStage None st with
    | Ok (sigs, tr) =>
        Ok {| reader := reader st; heap := heap st; pc := pc st;
              tsvRecordChan := tsvRecordChan st; pool := pool st;
              decodeDone := true; tsvErrChan := sigs; trace := tr |}
    | Blocked => Blocked
    | Panic => Panic
    end
  else Blocked.

Definition step (a : Action) (st : State) : Result State :=
  match a with
  | ActReader => reader_step st
  | ActWorker w => worker_step w st
  | ActHandoff w => handoff_step w st
  | ActMerger => merger_step st
  | ActDecodeReturn => decode_return_step st
  end.

(** A schedule runs as long as each chosen goroutine can move. *)
Fixpoint run (sched : list Action) (st : State) : Result State :=
  match sched with
  | [] => Ok st
  | a :: sched' =>
      match step a st with
      | Ok st' => run sched' st'
      | Blocked => Blocked
      | Panic => Panic
      end
  end.

(** ** What a run has done, read off its trace *)

Definition sent (tr : list Event) : list TSVConverter.t :=
  omap (fun ev => match ev with EvSend c => Some c | _ => None end) tr.

Definition outcomes (tr : list Event) : list ConversionOutcome :=
  omap (fun ev => match ev with EvOutcome o => Some o | _ => None end) tr.

Definition signals_of (s : Stage) (tr : list Event) : list (option goerror) :=
  omap (fun ev =>
          match ev with
          | EvSignal ReadStage e => match s with ReadStage => Some e | _ => None end
          | EvSignal DecodeStage e => match s with DecodeStage => Some e | _ => None end
          | _ => None
          end) tr.


(** ** The records of an input *)

(** The delimiter-terminated records at the front of [s], each with its
    delimiter, and the unterminated bytes after the last of them. *)
Fixpoint split_records (s : gostring) : list gostring * gostring :=
  match s with
  | [] => ([], [])
  | c :: s' =>
      let '(ls, tl) := split_records s' in
      if decide (c = entryDelimiter) then ([c] :: ls, tl)
      else match ls with
           | [] => ([], c :: tl)
           | l :: ls' => ((c :: l) :: ls', tl)
           end
  end.

Definition complete_records (s : gostring) : list gostring := (split_records s).1.
Definition trailing (s : gostring) : gostring := (split_records s).2.

(** The record the reading goroutine builds for the [i]-th line it reads,
    when it starts with the field list [fs] and a count of zero. *)
Definition nth_converter (fs : list gostring) (i : nat) (line : gostring)
  : TSVConverter.t :=
  {| TSVConverter.fields := fs;
     TSVConverter.data := line;
     TSVConverter.index := Z.of_nat i mod 2 ^ 64 |}.

(** What the reading goroutine sends on [tsvErrChan] after [k] records,
    when the stream ends with [e0], and the count it leaves behind. *)
Definition final_signal (e0 : goerror) (k : nat) : option goerror :=
  if is_EOF e0 then None
  else Some (read_error ((Z.of_nat k + 1) mod 2 ^ 64) e0).

Definition final_count (e0 : goerror) (k : nat) : Z :=
  if is_EOF e0 then Z.of_nat k mod 2 ^ 64 else (Z.of_nat k + 1) mod 2 ^ 64.

(** The events of the reading goroutine among those of a trace. *)
Definition is_reader_event (ev : Event) : bool :=
  match ev with
  | EvSend _ | EvClose | EvSignal ReadStage _ => true
  | _ => false
  end.

Definition reader_events (tr : list Event) : list Event :=
  filter (fun ev => is_reader_event ev = true) tr.

Definition busy_records (ws : list Worker) : list TSVConverter.t :=
  omap (fun w => match w with Busy c => Some c | _ => None end) ws.

(** The events the reading goroutine adds after its sends, by the place
    it has reached. *)
Definition reader_tail (e0 : goerror) (k : nat) (p : ReaderPC) : list Event :=
  match p with
  | PCSignal _ => [EvClose]
  | PCDone => [EvClose; EvSignal ReadStage (final_signal e0 k)]
  | _ => []
  end.

(** The state of the reading goroutine after it has sent [k] records of
    an input whose unread bytes were [L0] and whose stream ends with [e0]:
    what it has sent, the order of its events, and what each place of its
    code knows. *)
Definition reader_inv (fs : list gostring) (L0 : gostring) (e0 : goerror)
    (st : State) : Prop :=
  let recs := complete_records L0 in
  let k := length (sent (trace st)) in
  fields (reader st) = fs
  /\ lasterr (tsvReader (reader st)) = None
  /\ ending (inp (heap st)) = e0
  /\ sent (trace st) = imap (nth_converter fs) (take k recs)
  /\ reader_events (trace st)
     = (EvSend <$> sent (trace st)) ++ reader_tail e0 k (pc st)
  /\ match pc st with
     | PCRead =>
         closed (tsvRecordChan st) = false
         /\ numProcessed (reader st) = Z.of_nat k mod 2 ^ 64
         /\ complete_records (unread (reader st) (heap st)) = drop k recs
         /\ trailing (unread (reader st) (heap st)) = trailing L0
     | PCSend c =>
         closed (tsvRecordChan st) = false
         /\ numProcessed (reader st) = Z.of_nat k mod 2 ^ 64
         /\ (exists line, recs !! k = Some line /\ c = nth_converter fs k line)
         /\ complete_records (unread (reader st) (heap st)) = drop (S k) recs
         /\ trailing (unread (reader st) (heap st)) = trailing L0
     | PCClose err =>
         closed (tsvRecordChan st) = false
         /\ numProcessed (reader st) = Z.of_nat k mod 2 ^ 64
         /\ k = length recs
         /\ err = e0
         /\ tsvRecord (reader st) = trailing L0
     | PCSignal e =>
         closed (tsvRecordChan st) = true
         /\ numProcessed (reader st) = final_count e0 k
         /\ k = length recs
         /\ e = final_signal e0 k
     | PCDone =>
         closed (tsvRecordChan st) = true
         /\ numProcessed (reader st) = final_count e0 k
         /\ k = length recs
     end.

(** * Proofs *)

(** ** bytes.IndexByte and the records of a string *)

Lemma IndexByte_None (s : gostring) (c : ascii) :
  IndexByte s c = None <-> c ∉ s.
Proof.
  induction s as [|x s IH]; simpl.
  - split; [intros _; apply not_elem_of_nil | done].
  - destruct (decide (x = c)) as [->|Hne].
    + split; [done | intros H; exfalso; apply H; left].
    + rewrite not_elem_of_cons. destruct (IndexByte s c) eqn:E; simpl.
      * split; [done | intros [_ H]; apply IH in H; done].
      * split; [intros _; split; [congruence | by apply IH] | done].
Qed.

Lemma IndexByte_Some (s : gostring) (c : ascii) (i : nat) :
  IndexByte s c = Some i ->
  s !! i = Some c /\ (c ∉ take i s) /\ (i < length s)%nat.
Proof.
  revert i. induction s as [|x s IH]; intros i; simpl; [done|].
  destruct (decide (x = c)) as [->|Hne].
  - intros [= <-]. simpl. split_and!; [done | apply not_elem_of_nil | lia].
  - destruct (IndexByte s c) as [j|] eqn:E; simpl; [|done].
    intros [= <-]. destruct (IH j eq_refl) as (H1 & H2 & H3).
    simpl. split_and!; [done | | lia].
    rewrite not_elem_of_cons. split; [congruence | done].
Qed.

Lemma IndexByte_app_Some (a b : gostring) (c : ascii) (i : nat) :
  IndexByte a c = Some i -> IndexByte (a ++ b) c = Some i.
Proof.
  revert i. induction a as [|x a IH]; intros i; simpl; [done|].
  destruct (decide (x = c)); [done|].
  destruct (IndexByte a c) as [j|] eqn:E; simpl; [|done].
  intros [= <-]. by rewrite (IH j eq_refl).
Qed.

Lemma IndexByte_app_None (a b : gostring) (c : ascii) :
  IndexByte a c = None ->
  IndexByte (a ++ b) c = (fun i => (length a + i)%nat) <$> IndexByte b c.
Proof.
  induction a as [|x a IH]; simpl.
  - intros _. by destruct (IndexByte b c).
  - destruct (decide (x = c)); [done|].
    destruct (IndexByte a c) eqn:E; simpl; [done|].
    intros _. rewrite IH by done. by destruct (IndexByte b c).
Qed.

Lemma split_records_cut (s : gostring) (i : nat) :
  IndexByte s entryDelimiter = Some i ->
  complete_records s = take (S i) s :: complete_records (drop (S i) s)
  /\ trailing s = trailing (drop (S i) s).
Proof.
  unfold complete_records, trailing.
  revert i. induction s as [|x s IH]; intros i; simpl; [done|].
  destruct (decide (x = entryDelimiter)) as [->|Hne].
  - intros [= <-]. rewrite drop_0, take_0.
    destruct (split_records s) as [ls tl]. done.
  - destruct (IndexByte s entryDelimiter) as [j|] eqn:E; simpl; [|done].
    intros [= <-]. destruct (IH j eq_refl) as [H1 H2].
    destruct (split_records s) as [ls tl]. simpl in *.
    rewrite H1. simpl. done.
Qed.

Lemma split_records_none (s : gostring) :
  IndexByte s entryDelimiter = None ->
  complete_records s = [] /\ trailing s = s.
Proof.
  unfold complete_records, trailing.
  induction s as [|x s IH]; simpl; [done|].
  destruct (decide (x = entryDelimiter)); [done|].
  destruct (IndexByte s entryDelimiter) eqn:E; simpl; [done|].
  intros _. destruct IH as [H1 H2]; [done|].
  destruct (split_records s) as [ls tl]. simpl in *. subst. done.
Qed.

(** [split_records] cuts the string into whole records and a rest that
    holds no delimiter. *)
Lemma split_records_spec (s : gostring) :
  s = concat (complete_records s) ++ trailing s
  /\ Forall (fun l => exists body, l = body ++ [entryDelimiter]
                                 /\ entryDelimiter ∉ body) (complete_records s)
  /\ entryDelimiter ∉ trailing s.
Proof.
  unfold complete_records, trailing.
  induction s as [|x s (IH1 & IH2 & IH3)]; simpl.
  - split_and!; [done | constructor | apply not_elem_of_nil].
  - destruct (split_records s) as [ls tl]. simpl in *.
    destruct (decide (x = entryDelimiter)) as [->|Hne]; simpl.
    + split_and!; [by rewrite <- IH1 | | done].
      constructor; [|done]. exists []. split; [done | apply not_elem_of_nil].
    + destruct ls as [|l ls]; simpl in *.
      * split_and!; [by rewrite IH1 | constructor |].
        rewrite not_elem_of_cons. split; [congruence | done].
      * split_and!; [by rewrite IH1 | | done].
        inversion IH2 as [|? ? (body & -> & Hb) Hrest]; subst.
        constructor; [|done]. exists (x :: body). split; [done|].
        rewrite not_elem_of_cons. split; [congruence | done].
Qed.

Lemma complete_records_length (s : gostring) :
  (length (complete_records s) <= length s)%nat.
Proof.
  unfold complete_records.
  induction s as [|x s IH]; simpl; [lia|].
  destruct (split_records s) as [ls tl]. simpl in *.
  destruct (decide (x = entryDelimiter)); simpl; [lia|].
  destruct ls; simpl in *; lia.
Qed.


(** ** bufio.Reader.ReadString *)

Lemma Read_spec (r : ReaderRef) (n : nat) (h : Store) :
  let res := Read r n h in
  ending (inp res.2) = ending (inp h)
  /\ (r = RefIn -> bytesRead res.2 = bytesRead h)
  /\ match pending (inp h) with
     | [] => res.1 = ([], Some (ending (inp h)))
             /\ pending (inp res.2) = []
             /\ offset (inp res.2) = offset (inp h)
     | _ :: _ => res.1 = (take n (pending (inp h)), None)
                 /\ pending (inp res.2) = drop n (pending (inp h))
                 /\ offset (inp res.2)
                    = (offset (inp h) + length (take n (pending (inp h))))%nat
     end.
Proof.
  destruct h as [[p o e] br]. destruct r; simpl;
    unfold sizeTrackingReader_Read, Input_Read; simpl;
    destruct p; simpl; split_and!; done.
Qed.

(** The latched error of a reader, when there is one, is the one the
    exhausted stream reports. *)
Definition latched_ok (delim : ascii) (b : bufioReader) (h : Store) : Prop :=
  forall e, lasterr b = Some e ->
    IndexByte (buf b) delim = None /\ pending (inp h) = [] /\ e = ending (inp h).

Definition fragments_measure (b : bufioReader) (h : Store) : nat :=
  (2 * length (pending (inp h))
   + match lasterr b with Some _ => 0 | None => 2 end
   + (if defaultBufSize <=? length (buf b) then 1 else 0))%nat.

(** What a call of [ReadString] returns and leaves behind, in terms of the
    bytes [L] that were unread when it was called. *)
Definition ReadString_post (delim : ascii) (acc : gostring)
    (b : bufioReader) (h : Store)
    (res : (gostring * option goerror) * bufioReader * Store) : Prop :=
  let L := buf b ++ pending (inp h) in
  rd res.1.2 = rd b
  /\ lasterr res.1.2 = None
  /\ ending (inp res.2) = ending (inp h)
  /\ (offset (inp res.2) + length (pending (inp res.2))
      = offset (inp h) + length (pending (inp h)))%nat
  /\ (rd b = RefIn -> bytesRead res.2 = bytesRead h)
  /\ match IndexByte L delim with
     | Some i =>
         res.1.1 = (acc ++ take (S i) L, None)
         /\ buf res.1.2 ++ pending (inp res.2) = drop (S i) L
     | None =>
         res.1.1 = (acc ++ L, Some (ending (inp h)))
         /\ buf res.1.2 = [] /\ pending (inp res.2) = []
     end.

Opaque defaultBufSize.

Lemma readFragments_found (fuel : nat) (delim : ascii) (acc : gostring)
    (b : bufioReader) (h : Store) (i : nat) :
  IndexByte (buf b) delim = Some i ->
  readFragments fuel delim acc b h
  = ((acc ++ take (S i) (buf b), None),
     {| rd := rd b; buf := drop (S i) (buf b); lasterr := lasterr b |}, h).
Proof. intros H. destruct fuel; simpl; rewrite H; reflexivity. Qed.

Lemma readFragments_latched (fuel : nat) (delim : ascii) (acc : gostring)
    (b : bufioReader) (h : Store) (e : goerror) :
  IndexByte (buf b) delim = None ->
  lasterr b = Some e ->
  readFragments fuel delim acc b h
  = ((acc ++ buf b, Some e), {| rd := rd b; buf := []; lasterr := None |}, h).
Proof. intros H He. destruct fuel; simpl; rewrite H, He; reflexivity. Qed.

Lemma readFragments_full (fuel : nat) (delim : ascii) (acc : gostring)
    (b : bufioReader) (h : Store) :
  IndexByte (buf b) delim = None ->
  lasterr b = None ->
  (defaultBufSize <= length (buf b))%nat ->
  readFragments (S fuel) delim acc b h
  = readFragments fuel delim (acc ++ buf b)
      {| rd := rd b; buf := []; lasterr := None |} h.
Proof.
  intros H He Hfull. simpl. rewrite H, He.
  destruct (Nat.leb_spec defaultBufSize (length (buf b))); [reflexivity | lia].
Qed.

Lemma readFragments_fill (fuel : nat) (delim : ascii) (acc : gostring)
    (b : bufioReader) (h : Store) :
  IndexByte (buf b) delim = None ->
  lasterr b = None ->
  (length (buf b) < defaultBufSize)%nat ->
  readFragments (S fuel) delim acc b h
  = let res := Read (rd b) (defaultBufSize - length (buf b))%nat h in
    readFragments fuel delim acc
      {| rd := rd b; buf := buf b ++ res.1.1; lasterr := res.1.2 |} res.2.
Proof.
  intros H He Hfull. simpl. rewrite H, He.
  destruct (Nat.leb_spec defaultBufSize (length (buf b))); [lia|].
  destruct (Read (rd b) (defaultBufSize - length (buf b)) h) as [[data e] h'].
  reflexivity.
Qed.

Lemma defaultBufSize_pos : (0 < defaultBufSize)%nat.
Proof. Transparent defaultBufSize. unfold defaultBufSize. lia. Opaque defaultBufSize. Qed.

Lemma readFragments_post (fuel : nat) (delim : ascii) :
  forall (acc : gostring) (b : bufioReader) (h : Store),
    latched_ok delim b h ->
    (fragments_measure b h <= fuel)%nat ->
    ReadString_post delim acc b h (readFragments fuel delim acc b h).
Proof.
  induction fuel as [|fuel IH]; intros acc b h Hlatch Hfuel.
  all: destruct (IndexByte (buf b) delim) as [i|] eqn:Hidx.
  1,3: (assert (He : lasterr b = None)
          by (destruct (lasterr b) as [e|] eqn:He; [|done];
              destruct (Hlatch e He) as [? _]; congruence);
        rewrite (readFragments_found _ _ _ _ _ _ Hidx);
        destruct (IndexByte_Some _ _ _ Hidx) as (_ & _ & Hlt);
        unfold ReadString_post; cbn [fst snd rd buf lasterr];
        rewrite (IndexByte_app_Some _ (pending (inp h)) _ _ Hidx);
        rewrite take_app_le, drop_app_le by lia; done).
  all: destruct (lasterr b) as [e|] eqn:He.
  1,3: (destruct (Hlatch e He) as (_ & Hp & ->);
        rewrite (readFragments_latched _ _ _ _ _ _ Hidx He);
        unfold ReadString_post; cbn [fst snd rd buf lasterr];
        rewrite Hp, app_nil_r, Hidx; done).
  - unfold fragments_measure in Hfuel. rewrite He in Hfuel. lia.
  - unfold fragments_measure in Hfuel. rewrite He in Hfuel.
    pose proof defaultBufSize_pos as Hpos.
    destruct (Nat.leb_spec defaultBufSize (length (buf b))) as [Hfull|Hfull].
    + (* the buffer is full: its content is a fragment of the line *)
      rewrite (readFragments_full _ _ _ _ _ Hidx He Hfull).
      set (b' := {| rd := rd b; buf := []; lasterr := None |}).
      assert (Hl' : latched_ok delim b' h) by (intros e'; done).
      assert (Hm' : (fragments_measure b' h <= fuel)%nat).
      { unfold fragments_measure, b'. cbn [lasterr buf length].
        destruct (Nat.leb_spec defaultBufSize 0); [lia|].
        destruct (defaultBufSize <=? length (buf b))%nat; lia. }
      specialize (IH (acc ++ buf b) b' h Hl' Hm').
      unfold ReadString_post in *. cbn [rd buf lasterr b' app] in IH.
      destruct IH as (H1 & H2 & H3 & H4 & H5 & H6).
      split_and!; try done.
      rewrite (IndexByte_app_None _ _ _ Hidx).
      destruct (IndexByte (pending (inp h)) delim) as [j|]; cbn [fmap option_fmap option_map].
      * destruct H6 as [H6 H7]. rewrite H6, H7.
        rewrite take_app_ge, drop_app_ge by lia.
        replace (S (length (buf b) + j) - length (buf b))%nat with (S j) by lia.
        by rewrite <- app_assoc.
      * destruct H6 as (H6 & H7 & H8). rewrite H6. by rewrite <- app_assoc.
    + (* fill: one Read of the underlying reader *)
      rewrite (readFragments_fill _ _ _ _ _ Hidx He Hfull). cbv zeta.
      pose proof (Read_spec (rd b) (defaultBufSize - length (buf b)) h) as HR.
      cbv zeta in HR.
      set (res := Read (rd b) (defaultBufSize - length (buf b)) h) in *.
      destruct HR as (Hend & Hbr & HR).
      set (b' := {| rd := rd b; buf := buf b ++ res.1.1; lasterr := res.1.2 |}).
      destruct (pending (inp h)) as [|x p] eqn:Hp.
      * destruct HR as (Hres & Hp' & Hoff).
        assert (Hl' : latched_ok delim b' res.2).
        { intros e'. unfold b'. cbn [lasterr buf]. rewrite Hres. cbn [fst snd].
          intros [= <-]. rewrite app_nil_r. done. }
        assert (Hm' : (fragments_measure b' res.2 <= fuel)%nat).
        { unfold fragments_measure, b'. cbn [lasterr buf]. rewrite Hp', Hres.
          cbn [fst snd length].
          cbn [length] in Hfuel. destruct (defaultBufSize <=? _)%nat; lia. }
        specialize (IH acc b' res.2 Hl' Hm').
        unfold ReadString_post in *. cbn [rd buf lasterr b'] in IH.
        rewrite Hres in IH. cbn [fst snd] in IH.
        rewrite Hp', !app_nil_r in IH. rewrite ?Hp, ?app_nil_r.
        destruct IH as (H1 & H2 & H3 & H4 & H5 & H6).
        rewrite Hend in H3, H6.
        split_and!; try done.
        -- rewrite H4, Hoff. cbn [length]. lia.
        -- intros Hrd. rewrite H5, Hbr; done.
      * destruct HR as (Hres & Hp' & Hoff).
        set (n := (defaultBufSize - length (buf b))%nat) in *.
        assert (Hl' : latched_ok delim b' res.2).
        { intros e'. unfold b'. cbn [lasterr]. rewrite Hres. done. }
        assert (Hn : (0 < n)%nat) by (unfold n; lia).
        assert (Hlen : (length (drop n (x :: p)) < length (x :: p))%nat).
        { rewrite length_drop. cbn [length]. lia. }
        assert (Hm' : (fragments_measure b' res.2 <= fuel)%nat).
        { unfold fragments_measure, b'. cbn [lasterr buf]. rewrite Hp', Hres.
          cbn [fst snd].
          destruct (defaultBufSize <=? _)%nat; lia. }
        specialize (IH acc b' res.2 Hl' Hm').
        unfold ReadString_post in *. cbn [rd buf lasterr b'] in IH.
        rewrite Hres in IH. cbn [fst snd] in IH.
        rewrite Hp', <- app_assoc, take_drop in IH. rewrite ?Hp.
        destruct IH as (H1 & H2 & H3 & H4 & H5 & H6).
        rewrite Hend in H3, H6.
        split_and!; try done.
        -- rewrite H4, Hoff, length_take, length_drop. lia.
        -- intros Hrd. rewrite H5, Hbr; done.
Qed.

Lemma ReadString_spec (delim : ascii) (b : bufioReader) (h : Store) :
  lasterr b = None ->
  ReadString_post delim [] b h (ReadString delim b h).
Proof.
  intros Hb. apply readFragments_post.
  - intros e He. congruence.
  - unfold fragments_measure. rewrite Hb.
    destruct (defaultBufSize <=? length (buf b))%nat; lia.
Qed.


(** ** Runs and their invariants *)

Opaque ReadString.

Lemma run_app (s1 s2 : list Action) (st : State) :
  run (s1 ++ s2) st
  = match run s1 st with
    | Ok st' => run s2 st'
    | Blocked => Blocked
    | Panic => Panic
    end.
Proof.
  revert st. induction s1 as [|a s1 IH]; intros st; simpl; [done|].
  destruct (step a st); [apply IH | done | done].
Qed.

(** A property kept by every step holds throughout every run. *)
Lemma run_invariant (P : State -> Prop) :
  (forall a st st', P st -> step a st = Ok st' -> P st') ->
  forall sched st st', P st -> run sched st = Ok st' -> P st'.
Proof.
  intros Hstep sched. induction sched as [|a sched IH]; intros st st' HP Hrun.
  - simpl in Hrun. by simplify_eq.
  - simpl in Hrun. destruct (step a st) as [st1| |] eqn:Ha; try done.
    eapply IH; [|done]. by eapply Hstep.
Qed.

Lemma chan_send_Ok {A} (x : A) (c c' : Chan A) :
  chan_send x c = Ok c' ->
  closed c = false /\ (length (queue c) < capacity c)%nat
  /\ queue c' = queue c ++ [x] /\ capacity c' = capacity c /\ closed c' = false.
Proof.
  unfold chan_send. destruct (closed c) eqn:Hc; [done|].
  destruct (Nat.ltb_spec (length (queue c)) (capacity c)); [|done].
  intros [= <-]. done.
Qed.

Lemma chan_close_Ok {A} (c c' : Chan A) :
  chan_close c = Ok c' ->
  closed c = false
  /\ queue c' = queue c /\ capacity c' = capacity c /\ closed c' = true.
Proof.
  unfold chan_close. destruct (closed c) eqn:Hc; [done|]. intros [= <-]. done.
Qed.

Lemma chan_recv_Ok {A} (c c' : Chan A) (o : option A) :
  chan_recv c = Ok (o, c') ->
  capacity c' = capacity c /\ closed c' = closed c
  /\ match o with
     | Some x => queue c = x :: queue c'
     | None => queue c = [] /\ queue c' = [] /\ closed c = true
     end.
Proof.
  unfold chan_recv. destruct (queue c) as [|x q] eqn:Hq.
  - destruct (closed c) eqn:Hc; [|done]. intros [= <- <-]. done.
  - intros [= <- <-]. done.
Qed.

Ltac chan_inv_all :=
  repeat match goal with
    | H : chan_send _ _ = Ok _ |- _ =>
        apply chan_send_Ok in H; destruct H as (? & ? & ? & ? & ?)
    | H : chan_close _ = Ok _ |- _ =>
        apply chan_close_Ok in H; destruct H as (? & ? & ? & ?)
    | H : chan_recv _ = Ok (Some _, _) |- _ =>
        apply chan_recv_Ok in H; destruct H as (? & ? & ?)
    | H : chan_recv _ = Ok (None, _) |- _ =>
        apply chan_recv_Ok in H; destruct H as (? & ? & ? & ? & ?)
    end.

Ltac step_inv H :=
  unfold step, reader_step, worker_step, handoff_step, merger_step,
    decode_return_step, signal in H;
  repeat case_match; simplify_eq; chan_inv_all.

(** The channel keeps the capacity it was made with and never holds more
    than that; the pool keeps its size. *)
Definition chan_inv (nd : Z) (st : State) : Prop :=
  capacity (tsvRecordChan st) = Z.to_nat nd
  /\ (length (queue (tsvRecordChan st)) <= capacity (tsvRecordChan st))%nat
  /\ length (workers (pool st)) = Z.to_nat nd.

Lemma merge_workers (o : ConversionOutcome) (d d' : Decode)
    (os : list ConversionOutcome) :
  merge ordered o d = (os, d') ->
  workers d' = workers d /\ results d' = results d.
Proof. unfold merge. intros H. repeat case_match; simplify_eq; done. Qed.

Lemma chan_inv_step (nd : Z) (a : Action) (st st' : State) :
  chan_inv nd st -> step a st = Ok st' -> chan_inv nd st'.
Proof.
  intros (Hc & Hq & Hw) Hs. unfold chan_inv.
  destruct a; step_inv Hs; cbn [tsvRecordChan pool workers set_worker];
    try match goal with
      | H : merge _ _ _ = _ |- _ => apply merge_workers in H; destruct H as [-> _]
      end;
    cbn [workers]; rewrite ?length_insert;
    repeat match goal with
      | H : queue _ = _ |- _ => rewrite H in *
      | H : capacity _ = _ |- _ => rewrite H in *
      end;
    rewrite ?length_app in *; cbn [length] in *; split_and!; try done; try lia.
Qed.


(** ** The trace projections *)

Lemma sent_app (t1 t2 : list Event) : sent (t1 ++ t2) = sent t1 ++ sent t2.
Proof. apply omap_app. Qed.

Lemma outcomes_app (t1 t2 : list Event) :
  outcomes (t1 ++ t2) = outcomes t1 ++ outcomes t2.
Proof. apply omap_app. Qed.

Lemma signals_of_app (s : Stage) (t1 t2 : list Event) :
  signals_of s (t1 ++ t2) = signals_of s t1 ++ signals_of s t2.
Proof. apply omap_app. Qed.

Lemma reader_events_app (t1 t2 : list Event) :
  reader_events (t1 ++ t2) = reader_events t1 ++ reader_events t2.
Proof. apply filter_app. Qed.

Lemma sent_outcomes (os : list ConversionOutcome) : sent (EvOutcome <$> os) = [].
Proof. induction os; [done|]. done. Qed.

Lemma reader_events_outcomes (os : list ConversionOutcome) :
  reader_events (EvOutcome <$> os) = [].
Proof. induction os; [done|]. done. Qed.

Lemma signals_of_outcomes (s : Stage) (os : list ConversionOutcome) :
  signals_of s (EvOutcome <$> os) = [].
Proof. induction os; [done|]. done. Qed.

Lemma outcomes_outcomes (os : list ConversionOutcome) :
  outcomes (EvOutcome <$> os) = os.
Proof. induction os as [|o os IH]; [done|]. cbn. by rewrite <- IH at 2. Qed.

Lemma drop_cons_inv {A} (k : nat) (l : list A) (x : A) (r : list A) :
  drop k l = x :: r -> l !! k = Some x /\ drop (S k) l = r.
Proof.
  intros H. split.
  - rewrite <- (Nat.add_0_r k), <- lookup_drop, H. done.
  - replace (S k) with (k + 1)%nat by lia. rewrite <- drop_drop, H. done.
Qed.

Lemma uint64_incr_mod (k : nat) :
  uint64_incr (Z.of_nat k mod 2 ^ 64) = Z.of_nat (S k) mod 2 ^ 64.
Proof.
  unfold uint64_incr. rewrite Zplus_mod_idemp_l. f_equal. lia.
Qed.

Lemma uint64_incr_final (k : nat) :
  uint64_incr (Z.of_nat k mod 2 ^ 64) = (Z.of_nat k + 1) mod 2 ^ 64.
Proof. unfold uint64_incr. by rewrite Zplus_mod_idemp_l. Qed.


Lemma sent_cons (ev : Event) (tr : list Event) :
  sent (ev :: tr)
  = match ev with EvSend c => [c] | _ => [] end ++ sent tr.
Proof. by destruct ev. Qed.

Lemma outcomes_cons (ev : Event) (tr : list Event) :
  outcomes (ev :: tr)
  = match ev with EvOutcome o => [o] | _ => [] end ++ outcomes tr.
Proof. by destruct ev. Qed.

Lemma reader_events_cons (ev : Event) (tr : list Event) :
  reader_events (ev :: tr)
  = (if is_reader_event ev then [ev] else []) ++ reader_events tr.
Proof.
  unfold reader_events. rewrite filter_cons.
  destruct (is_reader_event ev); by case_decide.
Qed.

Lemma signals_of_cons (s : Stage) (ev : Event) (tr : list Event) :
  signals_of s (ev :: tr)
  = match ev with
    | EvSignal ReadStage e => match s with ReadStage => [e] | _ => [] end
    | EvSignal DecodeStage e => match s with DecodeStage => [e] | _ => [] end
    | _ => []
    end ++ signals_of s tr.
Proof. destruct ev as [| |[] ?| |]; destruct s; done. Qed.

Ltac trace_simpl :=
  rewrite ?sent_app, ?outcomes_app, ?reader_events_app, ?signals_of_app,
    ?sent_cons, ?outcomes_cons, ?reader_events_cons, ?signals_of_cons,
    ?sent_outcomes, ?outcomes_outcomes, ?reader_events_outcomes,
    ?signals_of_outcomes;
  change (sent []) with (@nil TSVConverter.t);
  change (outcomes []) with (@nil ConversionOutcome);
  change (reader_events []) with (@nil Event);
  cbn [is_reader_event app];
  rewrite ?app_nil_r.

Ltac simpl_st :=
  cbn [reader heap pc tsvRecordChan pool decodeDone tsvErrChan trace
       fields tsvReader tsvRecord numProcessed numDecoders
       with_tsvReader with_fields with_tsvRecord with_numProcessed
       workers results cursor reorder set_worker
       rd buf lasterr fst snd reader_tail] in *.

Lemma reader_inv_step (fs : list gostring) (L0 : gostring) (e0 : goerror)
    (a : Action) (st st' : State) :
  reader_inv fs L0 e0 st -> step a st = Ok st' -> reader_inv fs L0 e0 st'.
Proof.
  intros (Hf & Hl & He & Hsent & Hev & Hpc) Hs.
  assert (Hk : (length (sent (trace st)) <= length (complete_records L0))%nat).
  { rewrite Hsent at 1. rewrite length_imap, length_take. lia. }
  destruct a.
  - (* the reading goroutine *)
    unfold step, reader_step in Hs. destruct (pc st) eqn:Hpcst.
    + (* line 82 *)
      destruct Hpc as (Hc & Hn & Hrecs & Htl).
      pose proof (ReadString_spec entryDelimiter _ (heap st) Hl) as HR.
      destruct (ReadString entryDelimiter (tsvReader (reader st)) (heap st))
        as [[[line err] b'] h'] eqn:HRS.
      unfold ReadString_post in HR. cbn [fst snd] in HR.
      destruct HR as (Hrd & Hl' & Hend & Hoff & Hbr & HR).
      fold (unread (reader st) (heap st)) in HR.
      destruct (IndexByte (unread (reader st) (heap st)) entryDelimiter)
        as [i|] eqn:Hidx.
      * destruct HR as ([= -> ->] & Hrest). simplify_eq.
        destruct (split_records_cut _ _ Hidx) as [Hcut Htl'].
        rewrite Hrecs in Hcut. apply drop_cons_inv in Hcut as [Hlk Hdrop].
        unfold reader_inv. simpl_st. unfold unread. simpl_st.
        rewrite Hrest. split_and!; try done; try congruence.
        eexists. split; [done|]. unfold nth_converter. by rewrite Hn.
      * destruct HR as ([= -> ->] & Hb' & Hp'). simplify_eq.
        destruct (split_records_none _ Hidx) as [Hnone Htl'].
        rewrite Hrecs in Hnone.
        apply (f_equal length) in Hnone. rewrite length_drop in Hnone.
        unfold reader_inv. simpl_st.
        split_and!; try done; try congruence. cbn [length] in Hnone. lia.
    + (* line 84: close, then the value to signal *)
      destruct Hpc as (Hc & Hn & Hlen & -> & Hrec).
      destruct (chan_close (tsvRecordChan st)) as [ch| |] eqn:Hcl; try done.
      apply chan_close_Ok in Hcl as (_ & Hq & Hcap & Hclosed).
      unfold reader_inv, final_signal, final_count in *. revert Hs.
      destruct (is_EOF e0) eqn:Heof; intros Hs;
        cbv beta iota zeta in Hs; simplify_eq; simpl_st;
        trace_simpl; rewrite Hev; rewrite ?Heof; split_and!; try done.
      all: rewrite ?app_nil_r, ?Hn, ?uint64_incr_final; done.
    + (* lines 86 and 89: the terminal signal *)
      destruct Hpc as (Hc & Hn & Hlen & ->).
      destruct (signal ReadStage _ st) as [[sigs tr]| |] eqn:Hsig; try done.
      unfold signal in Hsig. case_match; simplify_eq.
      unfold reader_inv. simpl_st.
      trace_simpl. rewrite Hev, <- app_assoc. done.
    + (* line 93: the send, then line 98 *)
      destruct Hpc as (Hc & Hn & (line & Hlk & ->) & Hrecs & Htl).
      destruct (chan_send _ (tsvRecordChan st)) as [ch| |] eqn:Hsend; try done.
      apply chan_send_Ok in Hsend as (_ & _ & Hq & Hcap & Hclosed).
      simplify_eq. unfold reader_inv. simpl_st.
      trace_simpl. rewrite Hev, length_app. cbn [length]. rewrite ?app_nil_r.
      replace (length (sent (trace st)) + 1)%nat
        with (S (length (sent (trace st)))) by lia.
      rewrite Hn, uint64_incr_mod.
      split_and!; try done.
      * rewrite (take_S_r _ _ _ Hlk), imap_app, <- Hsent. cbn [imap].
        rewrite length_take, Nat.min_l by lia.
        unfold compose. rewrite Nat.add_0_r. done.
      * rewrite fmap_app. done.
    + done.
  - (* a worker *)
    step_inv Hs; unfold reader_inv; simpl_st; trace_simpl;
      destruct (pc st); simpl_st; rewrite ?app_nil_r in *; intuition congruence.
  - (* a send that meets a waiting worker *)
    unfold step, handoff_step in Hs.
    destruct (pc st) eqn:Hpcst; try done.
    repeat case_match; simplify_eq.
    destruct Hpc as (Hc & Hn & (line & Hlk & ->) & Hrecs & Htl).
    unfold reader_inv. simpl_st.
    trace_simpl. rewrite Hev, length_app. cbn [length]. rewrite ?app_nil_r.
    replace (length (sent (trace st)) + 1)%nat
      with (S (length (sent (trace st)))) by lia.
    rewrite Hn, uint64_incr_mod.
    split_and!; try done.
    * rewrite (take_S_r _ _ _ Hlk), imap_app, <- Hsent. cbn [imap].
      rewrite length_take, Nat.min_l by lia.
      unfold compose. rewrite Nat.add_0_r. done.
    * rewrite fmap_app. done.
  - (* the merger *)
    step_inv Hs; unfold reader_inv; simpl_st; trace_simpl;
      destruct (pc st); simpl_st; rewrite ?app_nil_r in *; intuition congruence.
  - (* the decode stage returns *)
    step_inv Hs; unfold reader_inv; simpl_st; trace_simpl;
      destruct (pc st); simpl_st; rewrite ?app_nil_r in *; intuition congruence.
Qed.


(** Every signal a stage sends is one the aggregator has taken, in the
    same order; the decode stage sends at most one. *)
Definition all_signals (tr : list Event) : list (option goerror) :=
  omap (fun ev => match ev with EvSignal _ e => Some e | _ => None end) tr.

Definition signal_inv (st : State) : Prop :=
  tsvErrChan st = all_signals (trace st)
  /\ signals_of DecodeStage (trace st) = (if decodeDone st then [None] else [])
  /\ (length (tsvErrChan st) <= quorum)%nat.

Lemma all_signals_app (t1 t2 : list Event) :
  all_signals (t1 ++ t2) = all_signals t1 ++ all_signals t2.
Proof. apply omap_app. Qed.

Lemma all_signals_outcomes (os : list ConversionOutcome) :
  all_signals (EvOutcome <$> os) = [].
Proof. induction os; [done|]. done. Qed.

Lemma all_signals_cons (ev : Event) (tr : list Event) :
  all_signals (ev :: tr)
  = match ev with EvSignal _ e => [e] | _ => [] end ++ all_signals tr.
Proof. by destruct ev. Qed.

Lemma signal_inv_step (a : Action) (st st' : State) :
  signal_inv st -> step a st = Ok st' -> signal_inv st'.
Proof.
  intros (Hsig & Hdec & Hlen) Hs. unfold signal_inv.
  destruct a; step_inv Hs; simpl_st; trace_simpl;
    rewrite ?all_signals_app, ?all_signals_cons, ?all_signals_outcomes;
    change (all_signals []) with (@nil (option goerror));
    change (signals_of DecodeStage []) with (@nil (option goerror));
    cbn [app]; rewrite ?app_nil_r, ?length_app; cbn [length];
    rewrite ?Nat.ltb_lt in *; unfold quorum in *;
    try (split_and!; try done; try congruence; lia).
  rewrite Hdec. split_and!; [congruence | done | lia].
Qed.

Lemma step_no_panic (fs : list gostring) (L0 : gostring) (e0 : goerror)
    (a : Action) (st : State) :
  reader_inv fs L0 e0 st -> step a st <> Panic.
Proof.
  intros (_ & _ & _ & _ & _ & Hpc) Hs.
  destruct a; unfold step, reader_step, worker_step, handoff_step, merger_step,
    decode_return_step, signal, chan_send, chan_close, chan_recv in Hs;
    repeat case_match; simplify_eq; intuition congruence.
Qed.

(** A run of a state that satisfies the invariants never panics: no send
    on a closed channel and no second close. *)
Lemma run_no_panic (fs : list gostring) (L0 : gostring) (e0 : goerror)
    (sched : list Action) :
  forall st, reader_inv fs L0 e0 st -> run sched st <> Panic.
Proof.
  induction sched as [|a sched IH]; intros st Hinv; simpl; [done|].
  destruct (step a st) as [st1| |] eqn:Ha; [|done|].
  - apply IH. by eapply reader_inv_step.
  - by eapply step_no_panic in Ha.
Qed.

Lemma StreamDocument_reader_inv (r : TSVInputReader) (h : Store) (st0 : State) :
  lasterr (tsvReader r) = None ->
  numProcessed r = 0 ->
  StreamDocument r h = Some st0 ->
  reader_inv (fields r) (unread r h) (ending (inp h)) st0.
Proof.
  intros Hl Hn Hst. unfold StreamDocument, make_chan in Hst.
  case_match; simplify_eq. cbn in Hst. simplify_eq.
  unfold reader_inv. simpl_st. cbn [closed].
  change (sent []) with (@nil TSVConverter.t).
  change (reader_events []) with (@nil Event).
  cbn [length]. rewrite take_0, drop_0. split_and!; done.
Qed.

Lemma StreamDocument_chan_inv (r : TSVInputReader) (h : Store) (st0 : State) :
  StreamDocument r h = Some st0 -> chan_inv (numDecoders r) st0.
Proof.
  intros Hst. unfold StreamDocument, make_chan in Hst.
  case_match; simplify_eq. cbn in Hst. simplify_eq.
  unfold chan_inv, streamDocuments_init. cbn.
  rewrite length_replicate. split_and!; [done | lia | done].
Qed.

Lemma StreamDocument_signal_inv (r : TSVInputReader) (h : Store) (st0 : State) :
  StreamDocument r h = Some st0 -> signal_inv st0.
Proof.
  intros Hst. unfold StreamDocument, make_chan in Hst.
  case_match; simplify_eq. cbn in Hst. simplify_eq.
  unfold signal_inv, quorum. cbn. split_and!; [done | done | lia].
Qed.



(** ** The decode stage never makes an outcome out of nothing *)

(** [o] is the conversion of a record the reading goroutine has sent. *)
Definition from_sent (tr : list Event) (o : ConversionOutcome) : Prop :=
  exists c, c ∈ sent tr /\ o = outcome_of c.

Definition decode_inv (st : State) : Prop :=
  (length (outcomes (trace st)) + length (results (pool st))
   + size (reorder (pool st)) + length (busy_records (workers (pool st)))
   + length (queue (tsvRecordChan st)) <= length (sent (trace st)))%nat
  /\ (forall c, c ∈ queue (tsvRecordChan st) -> c ∈ sent (trace st))
  /\ (forall c, c ∈ busy_records (workers (pool st)) -> c ∈ sent (trace st))
  /\ (forall o, o ∈ results (pool st) -> from_sent (trace st) o)
  /\ (forall k o, reorder (pool st) !! k = Some o -> from_sent (trace st) o)
  /\ (forall o, o ∈ outcomes (trace st) -> from_sent (trace st) o).

Lemma flush_spec (fuel : nat) :
  forall (cur : Z) (m : gmap Z ConversionOutcome) os cur' m',
    flush fuel cur m = (os, cur', m') ->
    (length os + size m' = size m)%nat
    /\ (forall o, o ∈ os -> exists k, m !! k = Some o)
    /\ (forall k o, m' !! k = Some o -> m !! k = Some o).
Proof.
  induction fuel as [|fuel IH]; intros cur m os cur' m' H; simpl in H.
  - simplify_eq. split_and!; [done | | done].
    intros o Ho. by apply elem_of_nil in Ho.
  - destruct (m !! cur) as [o|] eqn:Hcur.
    + destruct (flush fuel (uint64_incr cur) (delete cur m)) as [[os1 c1] m1] eqn:Hf.
      simplify_eq. destruct (IH _ _ _ _ _ Hf) as (H1 & H2 & H3).
      rewrite map_size_delete_Some in H1 by done.
      assert (size m <> 0%nat).
      { intros Hz. apply map_size_empty_inv in Hz. subst. by rewrite lookup_empty in Hcur. }
      split_and!.
      * cbn [length]. lia.
      * intros o' [->|Ho']%elem_of_cons; [eauto|].
        destruct (H2 _ Ho') as [k Hk]. apply lookup_delete_Some in Hk as [_ Hk]. eauto.
      * intros k o' Hk. apply H3 in Hk. by apply lookup_delete_Some in Hk as [_ Hk].
    + simplify_eq. split_and!; [done | | done].
      intros o Ho. by apply elem_of_nil in Ho.
Qed.

Lemma merge_spec (o : ConversionOutcome) (d d' : Decode)
    (os : list ConversionOutcome) :
  merge ordered o d = (os, d') ->
  workers d' = workers d /\ results d' = results d
  /\ (length os + size (reorder d') <= 1 + size (reorder d))%nat
  /\ (forall o', o' ∈ os -> o' = o \/ exists k, reorder d !! k = Some o')
  /\ (forall k o', reorder d' !! k = Some o' ->
        o' = o \/ reorder d !! k = Some o').
Proof.
  unfold merge. intros H. destruct ordered.
  - destruct (decide (seq o = cursor d)) as [Heq|Hne].
    + destruct (flush _ _ _) as [[os1 c1] m1] eqn:Hf. simplify_eq. cbn.
      destruct (flush_spec _ _ _ _ _ _ Hf) as (H1 & H2 & H3).
      split_and!; try done.
      * lia.
      * intros o' [->|Ho']%elem_of_cons; [by left | right; eauto].
      * intros k o' Hk. right. eauto.
    + simplify_eq. cbn. split_and!; try done.
      * pose proof (map_size_insert (seq o) o (reorder d)) as Hsz.
        destruct (reorder d !! seq o); simpl in Hsz; lia.
      * intros o' Ho'. by apply elem_of_nil in Ho'.
      * intros k o' [[_ ->]|[_ Hk]]%lookup_insert_Some; [by left | by right].
  - simplify_eq. split_and!; try done.
    + intros o' ->%list_elem_of_singleton. by left.
    + intros k o' Hk. by right.
Qed.

Lemma busy_records_insert (ws : list Worker) (w : nat) (old x : Worker) :
  ws !! w = Some old ->
  exists l1 l2,
    busy_records ws
    = l1 ++ match old with Busy c => [c] | _ => [] end ++ l2
    /\ busy_records (<[w := x]> ws)
       = l1 ++ match x with Busy c => [c] | _ => [] end ++ l2.
Proof.
  intros Hw. exists (busy_records (take w ws)), (busy_records (drop (S w) ws)).
  split.
  - rewrite <- (take_drop_middle _ _ _ Hw) at 1.
    unfold busy_records. rewrite omap_app. by destruct old.
  - rewrite insert_take_drop by (by eapply lookup_lt_Some).
    unfold busy_records. rewrite omap_app. by destruct x.
Qed.

Lemma from_sent_app (t1 t2 : list Event) (o : ConversionOutcome) :
  from_sent t1 o -> from_sent (t1 ++ t2) o.
Proof.
  intros (c & Hc & ->). exists c. split; [|done].
  rewrite sent_app. apply elem_of_app. by left.
Qed.

Ltac dec_fin :=
  first
    [ done
    | lia
    | by (intros; apply from_sent_app; eauto)
    | by (intros ? [?|?]%elem_of_app; apply elem_of_app; eauto)
    | by (intros; apply elem_of_app; left; eauto) ].

Lemma decode_inv_step (a : Action) (st st' : State) :
  decode_inv st -> step a st = Ok st' -> decode_inv st'.
Proof.
  intros (Hcount & Hq & Hb & Hr & Hm & Ho) Hs. unfold decode_inv.
  destruct a.
  - (* the reading goroutine *)
    step_inv Hs; simpl_st; trace_simpl; rewrite ?app_nil_r;
      repeat match goal with H : queue _ = _ |- _ => rewrite H end;
      rewrite ?length_app; cbn [length];
      split_and!; dec_fin.
  - (* a worker *)
    unfold step, worker_step in Hs.
    destruct (workers (pool st) !! w) as [[|c|]|] eqn:Hw; try done.
    + (* an idle worker takes a record, or exits *)
      destruct (chan_recv (tsvRecordChan st)) as [[[c|] ch]| |] eqn:Hrecv;
        try done; simplify_eq; apply chan_recv_Ok in Hrecv as (Hcap & Hcl & Hrq).
      * destruct (busy_records_insert _ _ _ (Busy c) Hw) as (l1 & l2 & Hb1 & Hb2).
        simpl_st. trace_simpl. rewrite Hb2. rewrite Hb1, Hrq in *.
        rewrite ?length_app in *. cbn [length app] in *.
        split_and!; try dec_fin.
        -- intros c' Hc'. apply Hq. by right.
        -- intros c' Hc'. rewrite elem_of_app, elem_of_cons in Hc'.
           destruct Hc' as [Hc'|[->|Hc']].
           ++ apply Hb. apply elem_of_app. by left.
           ++ apply Hq. by left.
           ++ apply Hb. apply elem_of_app. by right.
      * destruct Hrq as (Hrq & Hrq' & _).
        destruct (busy_records_insert _ _ _ Exited Hw) as (l1 & l2 & Hb1 & Hb2).
        simpl_st. rewrite Hb2. rewrite Hb1 in *. rewrite Hrq, Hrq' in *.
        split_and!; dec_fin.
    + (* a busy worker converts its record *)
      simplify_eq.
      destruct (busy_records_insert _ _ _ Idle Hw) as (l1 & l2 & Hb1 & Hb2).
      simpl_st. rewrite Hb2. rewrite Hb1 in *.
      rewrite ?length_app in *. cbn [length app] in *.
      split_and!; try dec_fin.
      * intros c' Hc'. apply Hb. rewrite elem_of_app, elem_of_cons.
        apply elem_of_app in Hc' as [?|?]; eauto.
      * intros o [Ho'| ->%list_elem_of_singleton]%elem_of_app; [eauto|].
        exists c. split; [|done]. apply Hb. rewrite elem_of_app, elem_of_cons. eauto.
  - (* a send that meets a waiting worker *)
    unfold step, handoff_step in Hs.
    destruct (pc st) eqn:Hpcst; try done.
    destruct (workers (pool st) !! w) as [[| |]|] eqn:Hw; try done.
    destruct (queue (tsvRecordChan st)) eqn:Hqe; try done.
    destruct (closed (tsvRecordChan st)); try done. simplify_eq.
    destruct (busy_records_insert _ _ _ (Busy c) Hw) as (l1 & l2 & Hb1 & Hb2).
    simpl_st. trace_simpl. rewrite Hb2. rewrite Hb1, ?Hqe in *.
    rewrite ?length_app in *. cbn [length app] in *.
    split_and!; try dec_fin.
    intros c' Hc'. rewrite elem_of_app, elem_of_cons in Hc'.
    apply elem_of_app.
    destruct Hc' as [Hc'|[->|Hc']].
    + left. apply Hb. apply elem_of_app. by left.
    + right. by apply list_elem_of_singleton.
    + left. apply Hb. apply elem_of_app. by right.
  - (* the merger *)
    unfold step, merger_step in Hs.
    destruct (results (pool st)) as [|o rest] eqn:Hres; try done.
    destruct (merge ordered o _) as [os d'] eqn:Hmerge. simplify_eq.
    apply merge_spec in Hmerge as (Hw' & Hr' & Hsz & Hos & Hmap).
    simpl_st. trace_simpl. rewrite Hw', Hr'. simpl_st.
    rewrite ?length_app in *. cbn [length] in *.
    assert (Hfo : from_sent (trace st) o) by (apply Hr; left).
    split_and!; try dec_fin.
    + intros o' Ho'. apply from_sent_app, Hr. by right.
    + intros k o' Hk. apply from_sent_app.
      destruct (Hmap _ _ Hk) as [->|Hk']; eauto.
    + intros o' [Ho'|Ho']%elem_of_app; apply from_sent_app; [eauto|].
      destruct (Hos _ Ho') as [->|[k Hk]]; eauto.
  - (* the decode stage returns *)
    step_inv Hs; simpl_st; trace_simpl; split_and!; dec_fin.
Qed.

Lemma StreamDocument_decode_inv (r : TSVInputReader) (h : Store) (st0 : State) :
  StreamDocument r h = Some st0 -> decode_inv st0.
Proof.
  intros Hst. unfold StreamDocument, make_chan in Hst.
  case_match; simplify_eq. cbn in Hst. simplify_eq.
  unfold decode_inv, streamDocuments_init. simpl_st. cbn [queue].
  change (sent []) with (@nil TSVConverter.t).
  change (outcomes []) with (@nil ConversionOutcome).
  assert (Hbusy : forall n, busy_records (replicate n Idle) = []).
  { induction n as [|n IH]; [done|]. cbn. apply IH. }
  rewrite Hbusy, map_size_empty. cbn [length].
  split_and!; try done; try (intros ? Hnil; by apply elem_of_nil in Hnil).
Qed.



(** ** A run that completes *)

(** One record through the pipeline: read, send, take, convert, merge. *)
Definition round : list Action :=
  [ActReader; ActReader; ActWorker 0%nat; ActWorker 0%nat; ActMerger].

(** The end of the input: the failed read, the close, the signal, every
    worker's exit and the return of the decode stage. *)
Definition finish (n : nat) : list Action :=
  [ActReader; ActReader; ActReader] ++ (ActWorker <$> List.seq 0%nat n) ++ [ActDecodeReturn].

Definition fair_schedule (records n : nat) : list Action :=
  concat (replicate records round) ++ finish n.

(** Nothing is in flight: the reader is about to read its [k]-th record
    and the pool of [S n] workers is idle. *)
Definition quiescent (n k : nat) (st : State) : Prop :=
  pc st = PCRead
  /\ tsvRecordChan st = {| queue := []; capacity := S n; closed := false |}
  /\ workers (pool st) = replicate (S n) Idle
  /\ results (pool st) = []
  /\ reorder (pool st) = ∅
  /\ (ordered = true -> cursor (pool st) = Z.of_nat k mod 2 ^ 64)
  /\ decodeDone st = false
  /\ tsvErrChan st = []
  /\ length (sent (trace st)) = k
  /\ length (outcomes (trace st)) = k.

Lemma merge_next (o : ConversionOutcome) (ws : list Worker) (cu : Z) :
  (ordered = true -> seq o = cu) ->
  merge ordered o {| workers := ws; results := []; cursor := cu; reorder := ∅ |}
  = ([o], {| workers := ws; results := [];
             cursor := if ordered then uint64_incr cu else cu; reorder := ∅ |}).
Proof.
  intros H. unfold merge. destruct ordered; [|done].
  cbn [cursor reorder workers results].
  rewrite decide_True by auto. rewrite map_size_empty. done.
Qed.

Lemma round_run (fs : list gostring) (L0 : gostring) (e0 : goerror)
    (n k : nat) (st : State) (line : gostring) :
  reader_inv fs L0 e0 st ->
  quiescent n k st ->
  complete_records L0 !! k = Some line ->
  exists st', run round st = Ok st' /\ quiescent n (S k) st'.
Proof.
  intros Hinv (Hpc & Hch & Hw & Hres & Hre & Hcur & Hdd & Hsig & Hk & Hko) Hline.
  pose proof Hinv as (Hf & Hl & He & Hsent & Hev & Hpcinv).
  rewrite Hpc in Hpcinv. destruct Hpcinv as (_ & Hn & Hrecs & Htl).
  destruct (reader_step st) as [st1| |] eqn:H1.
  2,3: (unfold reader_step in H1; rewrite Hpc in H1;
        destruct (ReadString _ _ _) as [[[? ?] ?] ?]; done).
  pose proof (reader_inv_step _ _ _ ActReader _ _ Hinv H1) as Hinv1.
  unfold reader_step in H1. rewrite Hpc in H1.
  destruct (ReadString _ _ _) as [[[l err] b'] h'] eqn:HRS.
  destruct Hinv1 as (_ & _ & _ & _ & _ & Hp1).
  destruct err as [err|].
  { injection H1 as <-. simpl_st. destruct Hp1 as (_ & _ & Hlen & _).
    apply lookup_lt_Some in Hline. lia. }
  injection H1 as <-. simpl_st.
  destruct Hp1 as (_ & _ & (line' & Hl' & Hc) & _).
  rewrite Hk in Hl'. rewrite Hl' in Hline. injection Hline as ->.
  destruct st as [r h p ch [ws rs cu ro] dd sg tr]. simpl_st. subst.
  unfold round. cbn [run step]. unfold reader_step at 1. simpl_st.
  rewrite HRS. cbv beta iota zeta. simpl_st.
  unfold reader_step. simpl_st. rewrite Hc. unfold chan_send.
  cbn [closed queue capacity length Nat.ltb Nat.leb app].
  unfold worker_step. simpl_st.
  cbn [replicate lookup list_lookup chan_recv queue].
  simpl_st. cbn [replicate insert list_insert lookup list_lookup app].
  unfold merger_step. simpl_st.
  rewrite merge_next.
  2:{ intros Ho. cbn [outcome_of seq nth_converter TSVConverter.index].
      symmetry. auto. }
  eexists. split; [reflexivity|].
  unfold quiescent. simpl_st. cbn [capacity closed fmap list_fmap].
  trace_simpl. rewrite !length_app. cbn [length].
  split_and!; try done; try lia.
  intros Ho. rewrite Ho. rewrite Hcur by done. apply uint64_incr_mod.
Qed.

Lemma rounds_run (fs : list gostring) (L0 : gostring) (e0 : goerror)
    (n m : nat) :
  forall (k : nat) (st : State),
    reader_inv fs L0 e0 st ->
    quiescent n k st ->
    (k + m = length (complete_records L0))%nat ->
    exists st', run (concat (replicate m round)) st = Ok st'
                /\ reader_inv fs L0 e0 st'
                /\ quiescent n (length (complete_records L0)) st'.
Proof.
  induction m as [|m IH]; intros k st Hinv Hq Hlen.
  - exists st. rewrite Nat.add_0_r in Hlen. subst k. done.
  - destruct (lookup_lt_is_Some_2 (complete_records L0) k) as [line Hline]; [lia|].
    destruct (round_run _ _ _ _ _ _ _ Hinv Hq Hline) as (st1 & Hrun1 & Hq1).
    assert (Hinv1 : reader_inv fs L0 e0 st1).
    { eapply (run_invariant (reader_inv fs L0 e0)); [|exact Hinv|exact Hrun1].
      intros a s s'. apply reader_inv_step. }
    destruct (IH (S k) st1 Hinv1 Hq1) as (st' & Hrun & Hinv' & Hq'); [lia|].
    exists st'. split; [|done].
    cbn [replicate concat]. rewrite run_app, Hrun1. done.
Qed.

(** Once the channel is closed and drained, each idle worker exits when
    it is scheduled. *)
Lemma workers_exit (j : nat) :
  forall (i : nat) (st : State),
    closed (tsvRecordChan st) = true ->
    queue (tsvRecordChan st) = [] ->
    workers (pool st) = replicate i Exited ++ replicate j Idle ->
    run (ActWorker <$> List.seq i j) st
    = Ok {| reader := reader st; heap := heap st; pc := pc st;
            tsvRecordChan := tsvRecordChan st;
            pool := {| workers := replicate (i + j) Exited;
                       results := results (pool st);
                       cursor := cursor (pool st);
                       reorder := reorder (pool st) |};
            decodeDone := decodeDone st; tsvErrChan := tsvErrChan st;
            trace := trace st |}.
Proof.
  induction j as [|j IH]; intros i st Hc Hq Hw.
  - cbn [List.seq fmap list_fmap run]. rewrite Nat.add_0_r.
    cbn [replicate] in Hw. rewrite app_nil_r in Hw. rewrite <- Hw.
    by destruct st as [? ? ? ? [? ? ? ?] ? ? ?].
  - cbn [List.seq fmap list_fmap run step]. unfold worker_step.
    rewrite Hw. rewrite lookup_app_r by (rewrite length_replicate; lia).
    rewrite length_replicate, Nat.sub_diag. cbn [replicate lookup list_lookup].
    unfold chan_recv. rewrite Hq, Hc.
    rewrite IH; simpl_st; try done.
    + do 2 f_equal. f_equal. f_equal. lia.
    + rewrite Hw.
      replace i with (length (replicate i Exited) + 0)%nat at 1
        by (rewrite length_replicate; lia).
      rewrite insert_app_r. cbn [replicate insert list_insert].
      change (Exited :: replicate j Idle) with ([Exited] ++ replicate j Idle).
      rewrite app_assoc. f_equal.
      symmetry. apply (replicate_S_end i Exited).
Qed.

(** Both goroutines have ended and StreamDocument has returned. *)
Definition finished (e0 : goerror) (k : nat) (st : State) : Prop :=
  pc st = PCDone
  /\ decodeDone st = true
  /\ tsvErrChan st = [final_signal e0 k; None]
  /\ retErr st = Some (final_signal e0 k)
  /\ length (sent (trace st)) = k
  /\ length (outcomes (trace st)) = k.

Lemma first_error_pair (e : option goerror) : first_error [e; None] = e.
Proof. by destruct e. Qed.

Lemma finish_run (fs : list gostring) (L0 : gostring) (e0 : goerror)
    (n : nat) (st : State) :
  reader_inv fs L0 e0 st ->
  quiescent n (length (complete_records L0)) st ->
  exists st', run (finish (S n)) st = Ok st'
              /\ finished e0 (length (complete_records L0)) st'.
Proof.
  intros Hinv (Hpc & Hch & Hw & Hres & Hre & Hcur & Hdd & Hsig & Hk & Hko).
  destruct (reader_step st) as [st1| |] eqn:H1.
  2,3: (unfold reader_step in H1; rewrite Hpc in H1;
        destruct (ReadString _ _ _) as [[[? ?] ?] ?]; done).
  pose proof (reader_inv_step _ _ _ ActReader _ _ Hinv H1) as Hinv1.
  unfold reader_step in H1. rewrite Hpc in H1.
  destruct (ReadString _ _ _) as [[[l err] b'] h'] eqn:HRS.
  destruct Hinv1 as (_ & _ & _ & _ & _ & Hp1).
  destruct err as [err|]; injection H1 as <-; simpl_st.
  2:{ destruct Hp1 as (_ & _ & (line' & Hl' & _) & _).
      apply lookup_lt_Some in Hl'. lia. }
  destruct Hp1 as (_ & Hn & _ & -> & _).
  destruct st as [r h p ch [ws rs cu ro] dd sg tr]. simpl_st. subst.
  unfold finish. rewrite run_app.
  cbn [run step]. unfold reader_step at 1. simpl_st.
  rewrite HRS. cbv beta iota zeta. simpl_st.
  unfold reader_step at 1. simpl_st. unfold chan_close. cbn [closed queue capacity].
  assert (Hfin : exists r1,
    (if is_EOF e0
     then (with_tsvRecord l (with_tsvReader b' r), None)
     else (with_numProcessed
             (uint64_incr (numProcessed (with_tsvRecord l (with_tsvReader b' r))))
             (with_tsvRecord l (with_tsvReader b' r)),
           Some (read_error
                   (numProcessed
                      (with_numProcessed
                         (uint64_incr
                            (numProcessed (with_tsvRecord l (with_tsvReader b' r))))
                         (with_tsvRecord l (with_tsvReader b' r)))) e0)))
    = (r1, final_signal e0 (length (sent tr)))).
  { unfold final_signal. destruct (is_EOF e0); [by eexists|].
    eexists. f_equal. simpl_st. rewrite Hn, uint64_incr_final. done. }
  destruct Hfin as (r1 & Hfin). simpl_st. rewrite Hfin. clear Hfin.
  cbv beta iota zeta.
  unfold reader_step. simpl_st. unfold signal. simpl_st.
  cbn [length Nat.ltb Nat.leb quorum app].
  rewrite run_app.
  rewrite (workers_exit (S n) 0); simpl_st; try done.
  cbn [run step]. unfold decode_return_step, signal. simpl_st.
  assert (Hex : all_exited (replicate (0 + S n) Exited) = true).
  { generalize (0 + S n)%nat. intros m. induction m as [|m IHm]; [done|].
    cbn [replicate]. unfold all_exited in *. cbn [forallb]. by rewrite IHm. }
  rewrite Hex. rewrite !bool_decide_eq_true_2 by done.
  cbn [andb length Nat.ltb Nat.leb quorum app].
  eexists. split; [reflexivity|].
  unfold finished, retErr, channelQuorumError. simpl_st.
  trace_simpl. rewrite first_error_pair. rewrite Hk in *.
  cbn [length Nat.leb quorum]. split_and!; try done.
Qed.

(** With at least one decoder, the schedule that serves the goroutines in
    turn takes every input to the end: all complete records are sent and
    converted, both stages signal, and StreamDocument returns. *)
Lemma fair_schedule_completes (r : TSVInputReader) (h : Store) :
  lasterr (tsvReader r) = None ->
  numProcessed r = 0 ->
  1 <= numDecoders r ->
  let recs := complete_records (unread r h) in
  exists st0 st',
    StreamDocument r h = Some st0
    /\ run (fair_schedule (length recs) (Z.to_nat (numDecoders r))) st0 = Ok st'
    /\ reader_inv (fields r) (unread r h) (ending (inp h)) st'
    /\ finished (ending (inp h)) (length recs) st'.
Proof.
  intros Hl Hn Hnd recs.
  destruct (StreamDocument r h) as [st0|] eqn:Hst.
  2:{ unfold StreamDocument, make_chan in Hst.
      destruct (Z.ltb_spec (numDecoders r) 0); [lia|done]. }
  pose proof (StreamDocument_reader_inv _ _ _ Hl Hn Hst) as Hinv.
  assert (Hq : quiescent (Nat.pred (Z.to_nat (numDecoders r))) 0 st0).
  { unfold StreamDocument, make_chan in Hst.
    destruct (Z.ltb_spec (numDecoders r) 0); [lia|].
    cbn in Hst. injection Hst as <-.
    unfold quiescent, streamDocuments_init. simpl_st.
    replace (S (Nat.pred (Z.to_nat (numDecoders r)))) with (Z.to_nat (numDecoders r)) by lia.
    split_and!; done. }
  destruct (rounds_run _ _ _ _ (length recs) 0%nat st0 Hinv Hq) as (st1 & Hr1 & Hinv1 & Hq1);
    [done|].
  destruct (finish_run _ _ _ _ _ Hinv1 Hq1) as (st' & Hr2 & Hfin).
  exists st0, st'. split; [done|].
  unfold fair_schedule. rewrite run_app. fold recs. rewrite Hr1.
  replace (Z.to_nat (numDecoders r)) with (S (Nat.pred (Z.to_nat (numDecoders r)))) by lia.
  split; [done|]. split; [|done].
  eapply (run_invariant (reader_inv _ _ _)); [|exact Hinv1|exact Hr2].
  intros a s s'. apply reader_inv_step.
Qed.


(** ** Every run from the start of StreamDocument *)

Lemma run_invs (r : TSVInputReader) (h : Store) (st0 st : State)
    (sched : list Action) :
  lasterr (tsvReader r) = None ->
  numProcessed r = 0 ->
  StreamDocument r h = Some st0 ->
  run sched st0 = Ok st ->
  reader_inv (fields r) (unread r h) (ending (inp h)) st
  /\ chan_inv (numDecoders r) st
  /\ signal_inv st
  /\ decode_inv st.
Proof.
  intros Hl Hn Hst Hrun. split_and!.
  - eapply (run_invariant (reader_inv _ _ _)); [|by apply StreamDocument_reader_inv|done].
    intros a s s'. apply reader_inv_step.
  - eapply (run_invariant (chan_inv _)); [|by eapply StreamDocument_chan_inv|done].
    intros a s s'. apply chan_inv_step.
  - eapply (run_invariant signal_inv); [|by eapply StreamDocument_signal_inv|done].
    intros a s s'. apply signal_inv_step.
  - eapply (run_invariant decode_inv); [|by eapply StreamDocument_decode_inv|done].
    intros a s s'. apply decode_inv_step.
Qed.

Lemma sent_reader_events (tr : list Event) : sent (reader_events tr) = sent tr.
Proof.
  induction tr as [|ev tr IH]; [done|].
  rewrite reader_events_cons, sent_app, IH, sent_cons.
  destruct ev as [| |[]| |]; done.
Qed.

Lemma signals_reader_events (tr : list Event) :
  signals_of ReadStage (reader_events tr) = signals_of ReadStage tr.
Proof.
  induction tr as [|ev tr IH]; [done|].
  rewrite reader_events_cons, signals_of_app, IH, signals_of_cons.
  destruct ev as [| |[]| |]; done.
Qed.

Lemma signals_of_sends (s : Stage) (cs : list TSVConverter.t) :
  signals_of s (EvSend <$> cs) = [].
Proof. induction cs; done. Qed.

(** The reading goroutine signals once, when it ends. *)
Lemma read_signals (fs : list gostring) (L0 : gostring) (e0 : goerror)
    (st : State) :
  reader_inv fs L0 e0 st ->
  signals_of ReadStage (trace st)
  = match pc st with
    | PCDone => [final_signal e0 (length (complete_records L0))]
    | _ => []
    end.
Proof.
  intros (_ & _ & _ & _ & Hev & Hpc).
  rewrite <- signals_reader_events, Hev, signals_of_app, signals_of_sends.
  destruct (pc st); cbn [reader_tail app]; try done.
  destruct Hpc as (_ & _ & <-). done.
Qed.

Lemma all_signals_length (tr : list Event) :
  length (all_signals tr)
  = (length (signals_of ReadStage tr) + length (signals_of DecodeStage tr))%nat.
Proof.
  induction tr as [|ev tr IH]; [done|].
  rewrite all_signals_cons, !signals_of_cons, !length_app, IH.
  destruct ev as [| |[]| |]; cbn [length]; lia.
Qed.

Lemma app_cons_split {A} (x : A) (k1 : list A) :
  forall l1 l2 k2 : list A,
    l1 ++ x :: l2 = k1 ++ k2 -> x ∉ k1 ->
    exists k, k2 = k ++ x :: l2 /\ l1 = k1 ++ k.
Proof.
  induction k1 as [|y k1 IH]; intros l1 l2 k2 Heq Hx.
  - exists l1. done.
  - destruct l1 as [|z l1]; simpl in Heq; simplify_eq.
    + exfalso. apply Hx. left.
    + destruct (IH l1 l2 k2) as (k & -> & ->); [done| |by exists k].
      intros ?. apply Hx. by right.
Qed.

Lemma close_not_send (cs : list TSVConverter.t) : EvClose ∉ EvSend <$> cs.
Proof. intros (c & ? & _)%list_elem_of_fmap. done. Qed.

Lemma signal_not_send (s : Stage) (e : option goerror) (cs : list TSVConverter.t) :
  EvSignal s e ∉ EvSend <$> cs.
Proof. intros (c & ? & _)%list_elem_of_fmap. done. Qed.

Lemma reader_events_elem (ev : Event) (tr : list Event) :
  ev ∈ reader_events tr <-> ev ∈ tr /\ is_reader_event ev = true.
Proof. unfold reader_events. rewrite list_elem_of_filter. tauto. Qed.


(** * The claims about StreamDocument *)

(** C3: in every run of StreamDocument, the [i]-th record (0-based) sent
    on the raw-record channel carries the index [i], as a uint64: the
    indices are 0, 1, 2, ... in the order of sending, without gap or
    repetition below 2^64; the record is the [i]-th line of the input and
    carries the reader's field list. *)
Theorem StreamDocument_indices_in_order (r : TSVInputReader) (h : Store)
    (st0 st : State) (sched : list Action) (i : nat) (c : TSVConverter.t) :
  lasterr (tsvReader r) = None ->
  numProcessed r = 0 ->
  StreamDocument r h = Some st0 ->
  run sched st0 = Ok st ->
  sent (trace st) !! i = Some c ->
  TSVConverter.index c = Z.of_nat i mod 2 ^ 64
  /\ (Z.of_nat i < 2 ^ 64 -> TSVConverter.index c = Z.of_nat i)
  /\ complete_records (unread r h) !! i = Some (TSVConverter.data c)
  /\ TSVConverter.fields c = fields r
  /\ (forall j c', sent (trace st) !! j = Some c' -> (i < j)%nat ->
        Z.of_nat j < 2 ^ 64 -> TSVConverter.index c < TSVConverter.index c').
Proof.
  intros Hl Hn Hst Hrun Hi.
  destruct (run_invs _ _ _ _ _ Hl Hn Hst Hrun) as ((_ & _ & _ & Hsent & _) & _).
  assert (Hat : forall j c', sent (trace st) !! j = Some c' ->
            exists line, complete_records (unread r h) !! j = Some line
                         /\ c' = nth_converter (fields r) j line).
  { intros j c' Hj. rewrite Hsent, list_lookup_imap in Hj.
    destruct (take _ _ !! j) as [line|] eqn:Hline; simplify_eq/=.
    apply lookup_take_Some in Hline as [Hline _]. by exists line. }
  destruct (Hat i c Hi) as (line & Hline & ->).
  cbn [nth_converter TSVConverter.index TSVConverter.data TSVConverter.fields].
  split_and!; try done.
  - intros Hlt. apply Z.mod_small. lia.
  - intros j c' Hj Hij Hlt. destruct (Hat j c' Hj) as (line' & _ & ->).
    cbn [nth_converter TSVConverter.index].
    rewrite !Z.mod_small by lia. lia.
Qed.



(** C6: in every run of StreamDocument the events of the reading
    goroutine come in the order sends, close, signal: its terminal signal
    is preceded by the close of the raw-record channel, nothing is sent or
    closed after the close, a failed read finds the channel still open and
    unsignalled, and no schedule makes a send or a close panic. *)
Theorem StreamDocument_close_before_signal (r : TSVInputReader) (h : Store)
    (st0 st : State) (sched : list Action) :
  lasterr (tsvReader r) = None ->
  numProcessed r = 0 ->
  StreamDocument r h = Some st0 ->
  run sched st0 = Ok st ->
  (forall t1 t2 e, trace st = t1 ++ EvSignal ReadStage e :: t2 -> EvClose ∈ t1)
  /\ (forall t1 t2, trace st = t1 ++ EvClose :: t2 ->
        sent t2 = [] /\ (EvClose ∉ t2) /\ signals_of ReadStage t1 = [])
  /\ (forall err, pc st = PCClose err ->
        closed (tsvRecordChan st) = false /\ (EvClose ∉ trace st)
        /\ signals_of ReadStage (trace st) = [])
  /\ (forall e, pc st = PCSignal e ->
        closed (tsvRecordChan st) = true /\ EvClose ∈ trace st
        /\ signals_of ReadStage (trace st) = [])
  /\ (closed (tsvRecordChan st) = true -> forall c, pc st <> PCSend c)
  /\ (forall more, run more st <> Panic).
Proof.
  intros Hl Hn Hst Hrun.
  destruct (run_invs _ _ _ _ _ Hl Hn Hst Hrun) as (Hinv & _).
  pose proof (read_signals _ _ _ _ Hinv) as Hsig.
  pose proof Hinv as (_ & _ & _ & _ & Hev & Hpc).
  set (k := length (sent (trace st))) in *.
  assert (Htail : reader_tail (ending (inp h)) k (pc st) = []
                  \/ reader_tail (ending (inp h)) k (pc st) = [EvClose]
                  \/ exists e, reader_tail (ending (inp h)) k (pc st)
                               = [EvClose; EvSignal ReadStage e]).
  { destruct (pc st); cbn [reader_tail]; eauto. }
  split_and!.
  - intros t1 t2 e Htr. rewrite Htr, reader_events_app, reader_events_cons in Hev.
    cbn [is_reader_event app] in Hev.
    apply app_cons_split in Hev as (k' & Hk' & Ht1); [|apply signal_not_send].
    destruct Htail as [Ht|[Ht|(e' & Ht)]]; rewrite Ht in Hk'.
    + by destruct k'.
    + destruct k' as [|? [|? ?]]; simplify_eq/=.
    + destruct k' as [|? [|? [|? ?]]]; simplify_eq/=.
      apply (reader_events_elem EvClose t1). rewrite Ht1.
      apply elem_of_app. right. left.
  - intros t1 t2 Htr. rewrite Htr, reader_events_app, reader_events_cons in Hev.
    cbn [is_reader_event app] in Hev.
    apply app_cons_split in Hev as (k' & Hk' & Ht1); [|apply close_not_send].
    assert (Hk0 : k' = [] /\ (reader_events t2 = []
                              \/ exists e, reader_events t2 = [EvSignal ReadStage e])).
    { destruct Htail as [Ht|[Ht|(e' & Ht)]]; rewrite Ht in Hk'.
      - by destruct k'.
      - destruct k' as [|? [|? ?]]; simplify_eq/=. eauto.
      - destruct k' as [|? [|? [|? ?]]]; simplify_eq/=. eauto. }
    destruct Hk0 as (-> & Ht2). rewrite app_nil_r in Ht1.
    split_and!.
    + rewrite <- sent_reader_events. by destruct Ht2 as [->|(? & ->)].
    + intros Hin. assert (EvClose ∈ reader_events t2) as Hin'
        by (by apply reader_events_elem).
      destruct Ht2 as [Ht2|(? & Ht2)]; rewrite Ht2 in Hin'.
      * by apply elem_of_nil in Hin'.
      * apply list_elem_of_singleton in Hin'. done.
    + rewrite <- signals_reader_events, Ht1. apply signals_of_sends.
  - intros err Herr. rewrite Herr in Hpc, Hsig, Hev. cbn [reader_tail] in Hev.
    destruct Hpc as (Hc & _). split_and!; try done.
    intros Hin. assert (EvClose ∈ reader_events (trace st)) as Hin'
      by (by apply reader_events_elem).
    rewrite Hev, app_nil_r in Hin'. by apply close_not_send in Hin'.
  - intros e He. rewrite He in Hpc, Hsig, Hev. cbn [reader_tail] in Hev.
    destruct Hpc as (Hc & _). split_and!; try done.
    apply (reader_events_elem EvClose (trace st)). rewrite Hev.
    apply elem_of_app. right. left.
  - intros Hc c Hpcs. rewrite Hpcs in Hpc. destruct Hpc as (Hc' & _). congruence.
  - intros more. by eapply run_no_panic.
Qed.


(** Modelled from the spec: the decode stage only ever signals nil, so
    the first error among all signals is the reading stage's. *)
Lemma first_error_read (tr : list Event) :
  Forall (fun e => e = None) (signals_of DecodeStage tr) ->
  first_error (all_signals tr) = first_error (signals_of ReadStage tr).
Proof.
  unfold first_error. intros Hd.
  assert (Hf : filter is_Some (all_signals tr)
               = filter is_Some (signals_of ReadStage tr)); [|by rewrite Hf].
  induction tr as [|ev tr IH]; [done|].
  rewrite signals_of_cons in Hd. apply Forall_app in Hd as [Hd1 Hd2].
  rewrite all_signals_cons, signals_of_cons, !filter_app, IH by done.
  f_equal. destruct ev as [| |[] e| |]; try done.
  inversion Hd1; subst. done.
Qed.


(** C8: the raw-record channel made by StreamDocument has capacity
    [numDecoders] and starts empty; in every run it keeps that capacity
    and never holds more records; when it holds that many, the reading
    goroutine cannot hand over another record: its send waits, and the
    one step it may still take (a read) sends nothing; below the capacity
    a send on the open channel goes through. *)
Theorem StreamDocument_channel_capacity (r : TSVInputReader) (h : Store)
    (st0 : State) :
  lasterr (tsvReader r) = None ->
  numProcessed r = 0 ->
  StreamDocument r h = Some st0 ->
  0 <= numDecoders r
  /\ capacity (tsvRecordChan st0) = Z.to_nat (numDecoders r)
  /\ queue (tsvRecordChan st0) = []
  /\ (forall sched st, run sched st0 = Ok st ->
        capacity (tsvRecordChan st) = Z.to_nat (numDecoders r)
        /\ (length (queue (tsvRecordChan st)) <= Z.to_nat (numDecoders r))%nat
        /\ (length (queue (tsvRecordChan st)) = Z.to_nat (numDecoders r) ->
              (forall c, pc st = PCSend c -> reader_step st = Blocked)
              /\ (forall st', reader_step st = Ok st' ->
                    sent (trace st') = sent (trace st)
                    /\ tsvRecordChan st' = tsvRecordChan st
                       \/ closed (tsvRecordChan st') = true)
              /\ (0 < numDecoders r -> forall w, handoff_step w st = Blocked))
        /\ ((length (queue (tsvRecordChan st)) < Z.to_nat (numDecoders r))%nat ->
              forall c, pc st = PCSend c ->
              exists st', reader_step st = Ok st'
                          /\ sent (trace st') = sent (trace st) ++ [c]
                          /\ queue (tsvRecordChan st') = queue (tsvRecordChan st) ++ [c])).
Proof.
  intros Hl Hn Hst.
  assert (Hall : forall sched st, run sched st0 = Ok st ->
            chan_inv (numDecoders r) st
            /\ forall c, pc st = PCSend c -> closed (tsvRecordChan st) = false).
  { intros sched st Hrun.
    destruct (run_invs _ _ _ _ _ Hl Hn Hst Hrun) as ((_ & _ & _ & _ & _ & Hpc) & Hc & _).
    split; [done|]. intros c Hc'. rewrite Hc' in Hpc. tauto. }
  unfold StreamDocument, make_chan in Hst.
  destruct (Z.ltb_spec (numDecoders r) 0) as [|Hnd]; [done|].
  cbn in Hst. injection Hst as <-. simpl_st. cbn [capacity queue].
  split_and!; try done.
  intros sched st Hrun.
  destruct (Hall _ _ Hrun) as ((Hcap & Hlen & _) & Hopen'). rewrite Hcap in Hlen.
  split_and!; try done.
  - intros Hfull. split_and!.
    + intros c Hc. unfold reader_step, chan_send.
      rewrite Hc, Hcap, Hfull, (Hopen' _ Hc).
      by rewrite Nat.ltb_irrefl.
    + intros st' Hs. unfold reader_step, chan_send, chan_close, signal in Hs.
      rewrite Hcap, Hfull, Nat.ltb_irrefl in Hs.
      repeat case_match; simplify_eq; simpl_st; cbn [closed]; trace_simpl;
        rewrite ?app_nil_r; auto.
    + intros Hpos w. unfold handoff_step.
      destruct (queue (tsvRecordChan st)); [simpl in Hfull; lia|].
      by repeat case_match.
  - intros Hlt c Hc. pose proof (Hopen' _ Hc) as Hopen.
    unfold reader_step, chan_send.
    rewrite Hc, Hopen, Hcap.
    destruct (Nat.ltb_spec (length (queue (tsvRecordChan st)))
                (Z.to_nat (numDecoders r))); [|lia].
    eexists. split; [reflexivity|]. simpl_st. cbn [queue].
    by rewrite sent_app.
Qed.


(** Modelled from the spec: whatever StreamDocument returns is the first
    error among the two signals, and the decode stage signals nil. *)
Lemma retErr_read_signal (fs : list gostring) (L0 : gostring) (e0 : goerror)
    (st : State) (x : option goerror) :
  reader_inv fs L0 e0 st -> signal_inv st ->
  retErr st = Some x ->
  x = final_signal e0 (length (complete_records L0)).
Proof.
  intros Hinv (Hall & Hdec & Hq) Hret.
  pose proof (read_signals _ _ _ _ Hinv) as Hsig.
  pose proof (all_signals_length (trace st)) as Hlen. rewrite <- Hall in Hlen.
  unfold retErr, channelQuorumError, quorum in Hret.
  destruct (Nat.leb_spec 2 (length (tsvErrChan st))); [|done].
  injection Hret as <-. rewrite Hall, first_error_read.
  - rewrite Hsig in *. rewrite Hdec in Hlen.
    destruct (pc st), (decodeDone st); cbn [length] in Hlen; try lia.
    unfold first_error. by destruct (final_signal _ _).
  - rewrite Hdec. destruct (decodeDone st); repeat constructor.
Qed.

(** C2: when the stream holds [k] complete records and then fails with an
    error other than io.EOF, the only signal of the reading stage, in any
    run, is the error whose text is "read error on entry #" followed by
    the ordinal k+1 and the stream's error; StreamDocument returns nothing
    else; at most [k] records are sent and at most [k] outcomes reach the
    consumer; and with at least one decoder there is a run that ends with
    this error. *)
Theorem StreamDocument_read_error_ordinal (r : TSVInputReader) (h : Store)
    (st0 : State) :
  lasterr (tsvReader r) = None ->
  numProcessed r = 0 ->
  StreamDocument r h = Some st0 ->
  is_EOF (ending (inp h)) = false ->
  let k := length (complete_records (unread r h)) in
  let e := read_error ((Z.of_nat k + 1) mod 2 ^ 64) (ending (inp h)) in
  Error e = str "read error on entry #"
            ++ format_uint ((Z.of_nat k + 1) mod 2 ^ 64)
            ++ str ": " ++ Error (ending (inp h))
  /\ (Z.of_nat k + 1 < 2 ^ 64 -> e = read_error (Z.of_nat k + 1) (ending (inp h)))
  /\ (forall sched st, run sched st0 = Ok st ->
        (length (sent (trace st)) <= k)%nat
        /\ (length (outcomes (trace st)) <= k)%nat
        /\ signals_of ReadStage (trace st)
           = match pc st with PCDone => [Some e] | _ => [] end
        /\ (forall x, retErr st = Some x -> x = Some e))
  /\ (1 <= numDecoders r ->
      exists sched st, run sched st0 = Ok st /\ pc st = PCDone
                       /\ retErr st = Some (Some e)
                       /\ length (outcomes (trace st)) = k).
Proof.
  intros Hl Hn Hst Heof k e.
  assert (Hfs : final_signal (ending (inp h)) k = Some e).
  { unfold final_signal. by rewrite Heof. }
  split_and!.
  - done.
  - intros Hlt. unfold e. by rewrite Z.mod_small by lia.
  - intros sched st Hrun.
    destruct (run_invs _ _ _ _ _ Hl Hn Hst Hrun) as (Hinv & _ & Hsinv & Hdinv).
    pose proof (read_signals _ _ _ _ Hinv) as Hsig. fold k in Hsig.
    rewrite Hfs in Hsig.
    assert (Hk : (length (sent (trace st)) <= k)%nat).
    { destruct Hinv as (_ & _ & _ & Hsent & _).
      apply (f_equal length) in Hsent.
      rewrite length_imap, length_take in Hsent. unfold k. lia. }
    split_and!; try done.
    + destruct Hdinv as (Hcount & _). lia.
    + intros x Hx. rewrite <- Hfs. by eapply retErr_read_signal.
  - intros Hnd.
    destruct (fair_schedule_completes r h Hl Hn Hnd) as (s0 & st' & Hs0 & Hrun & _ & Hfin).
    rewrite Hst in Hs0. injection Hs0 as <-.
    destruct Hfin as (Hpc & _ & _ & Hret & _ & Hout).
    eexists _, st'. split; [exact Hrun|]. split; [done|].
    fold k in Hret, Hout. rewrite Hret, Hfs. done.
Qed.



(** C9, amended: when the reading stage has ended, [numProcessed] is the
    number of records handed to the decode channel if the stream ended
    with io.EOF, and that number plus one if it ended with another error:
    line 88 counts the entry whose read failed. *)
Theorem StreamDocument_processed_count (r : TSVInputReader) (h : Store)
    (st0 st : State) (sched : list Action) :
  lasterr (tsvReader r) = None ->
  numProcessed r = 0 ->
  StreamDocument r h = Some st0 ->
  run sched st0 = Ok st ->
  pc st = PCDone ->
  let k := Z.of_nat (length (sent (trace st))) in
  length (sent (trace st)) = length (complete_records (unread r h))
  /\ numProcessed (reader st)
     = (if is_EOF (ending (inp h)) then k else k + 1) mod 2 ^ 64.
Proof.
  intros Hl Hn Hst Hrun Hpc k.
  destruct (run_invs _ _ _ _ _ Hl Hn Hst Hrun) as ((_ & _ & _ & _ & _ & Hp) & _).
  rewrite Hpc in Hp. destruct Hp as (_ & Hcount & Hk).
  split; [done|]. rewrite Hcount. unfold final_count, k.
  by destruct (is_EOF _).
Qed.

(** ** The size counter *)

(** The buffered reader reads the stream itself, so the counter of the
    [sizeTrackingReader] keeps the value [c] while the stream is consumed. *)
Definition size_inv (c : Z) (total : nat) (st : State) : Prop :=
  rd (tsvReader (reader st)) = RefIn
  /\ lasterr (tsvReader (reader st)) = None
  /\ bytesRead (heap st) = c
  /\ (offset (inp (heap st)) + length (pending (inp (heap st))) = total)%nat.

Lemma size_inv_step (c : Z) (total : nat) (a : Action) (st st' : State) :
  size_inv c total st -> step a st = Ok st' -> size_inv c total st'.
Proof.
  intros (Hrd & Hl & Hb & Ho) Hs. unfold size_inv.
  destruct a; cbn [step] in Hs.
  2-5: (step_inv Hs; simpl_st; done).
  unfold reader_step in Hs.
  destruct (pc st) eqn:Hpc.
  - pose proof (ReadString_spec entryDelimiter _ (heap st) Hl) as Hpost.
    destruct (ReadString _ _ _) as [[[l err] b'] h'].
    destruct Hpost as (Hrd' & Hl' & _ & Ho' & Hb' & _). cbn [fst snd] in *.
    injection Hs as <-. simpl_st. split_and!; try congruence.
    rewrite Hb' by done. done.
  - destruct (chan_close _); [|done..]. revert Hs.
    destruct (is_EOF err); cbv beta iota zeta; intros [= <-]; simpl_st; done.
  - unfold signal in Hs. repeat case_match; simplify_eq; simpl_st; done.
  - destruct (chan_send _ _); [|done..]. injection Hs as <-. simpl_st. done.
  - done.
Qed.

(** C1, as the code has it: the reader made by [NewTSVInputReader] never
    forwards what it consumes to the size counter. After the header is
    read and throughout every run of StreamDocument, [Size] is 0, while
    the bytes taken from the stream are those missing from it: a
    non-empty stream has lost bytes as soon as the header is read. *)
Theorem NewTSVInputReader_Size_stays_zero (fs : list gostring) (i : Input)
    (n : Z) (st0 st : State) (sched : list Action) :
  let opened :=
    ReadAndValidateHeader (NewTSVInputReader fs i n).1 (NewTSVInputReader fs i n).2 in
  let r1 := opened.1.2 in
  let h1 := opened.2 in
  StreamDocument r1 h1 = Some st0 ->
  run sched st0 = Ok st ->
  Size (NewTSVInputReader fs i n).2 = 0
  /\ Size h1 = 0
  /\ Size (heap st) = 0
  /\ (offset (inp h1) + length (pending (inp h1))
      = offset i + length (pending i))%nat
  /\ (pending i <> [] -> (offset i < offset (inp h1))%nat)
  /\ (offset (inp (heap st)) + length (pending (inp (heap st)))
      = offset i + length (pending i))%nat.
Proof.
  cbv zeta.
  unfold ReadAndValidateHeader, NewTSVInputReader. cbn [fst snd tsvReader].
  pose proof (ReadString_spec entryDelimiter (bufio_NewReader RefIn)
                {| inp := i; bytesRead := 0 |} eq_refl) as Hpost.
  destruct (ReadString _ _ _) as [[[l err] b'] h'].
  destruct Hpost as (Hrd & Hl & _ & Ho & Hb & Hres).
  cbn [fst snd bufio_NewReader rd buf inp bytesRead app] in *.
  assert (Hgo : forall r1, tsvReader r1 = b' ->
            StreamDocument r1 h' = Some st0 -> run sched st0 = Ok st ->
            Size {| inp := i; bytesRead := 0 |} = 0
            /\ Size h' = 0 /\ Size (heap st) = 0
            /\ (offset (inp h') + length (pending (inp h'))
                = offset i + length (pending i))%nat
            /\ (pending i <> [] -> (offset i < offset (inp h'))%nat)
            /\ (offset (inp (heap st)) + length (pending (inp (heap st)))
                = offset i + length (pending i))%nat).
  { intros r1 Hr1 Hst Hrun.
    assert (Hinv : size_inv 0 (offset i + length (pending i)) st).
    { eapply (run_invariant (size_inv _ _)); [| |exact Hrun].
      - intros a s s'. apply size_inv_step.
      - unfold StreamDocument in Hst.
        destruct (make_chan _); cbn in Hst; [|done]. injection Hst as <-.
        unfold size_inv. simpl_st. rewrite Hr1, Hb by done. done. }
    destruct Hinv as (_ & _ & Hsz & Hoff).
    unfold Size. rewrite Hb by done. split_and!; try done; try lia.
    intros Hne. destruct (IndexByte (pending i) entryDelimiter) as [j|] eqn:Hj.
    - destruct Hres as (_ & Hdrop). apply (f_equal length) in Hdrop.
      rewrite length_app, length_drop in Hdrop.
      apply IndexByte_Some in Hj as (_ & _ & Hlt). lia.
    - destruct Hres as (_ & _ & Hp). rewrite Hp in Ho. simpl in Ho.
      destruct (pending i); [done|]. simpl in Ho. lia. }
  destruct err as [e|]; cbn [fst snd]; intros Hst Hrun;
    (eapply Hgo; [|exact Hst|exact Hrun]); done.
Qed.


(** * The header *)

Lemma fold_append_trim (toks : list gostring) :
  forall fs : list gostring,
    fold_left (fun acc field => acc ++ [TrimRight field crlf]) toks fs
    = fs ++ ((fun tok => TrimRight tok crlf) <$> toks).
Proof.
  induction toks as [|tok toks IH]; intros fs; cbn [fold_left fmap list_fmap].
  - by rewrite app_nil_r.
  - rewrite IH, <- app_assoc. done.
Qed.

(** * More on the header line and on Convert *)

(** [strings.Join(toks, sep)] for a one-byte separator. *)
Fixpoint Join (toks : list gostring) (sep : ascii) : gostring :=
  match toks with
  | [] => []
  | [tok] => tok
  | tok :: rest => tok ++ sep :: Join rest sep
  end.

(** The number of occurrences of [c] in [s] ([strings.Count]). *)
Definition Count (s : gostring) (c : ascii) : nat :=
  length (filter (fun x => x = c) (s : list ascii)).

Lemma Split_nonempty (s : gostring) (sep : ascii) : Split s sep <> [].
Proof.
  destruct s as [|c s]; simpl; [done|].
  destruct (decide (c = sep)); [done|]. by destruct (Split s sep).
Qed.

Lemma Split_Join (s : gostring) (sep : ascii) : Join (Split s sep) sep = s.
Proof.
  induction s as [|c s IH]; [done|]. simpl.
  pose proof (Split_nonempty s sep) as Hne.
  destruct (decide (c = sep)) as [->|Hc].
  - destruct (Split s sep) as [|tok rest] eqn:E; [done|].
    change (Join ([] :: tok :: rest) sep) with ([] ++ sep :: Join (tok :: rest) sep).
    by rewrite IH.
  - destruct (Split s sep) as [|tok rest] eqn:E; [done|].
    destruct rest as [|tok' rest]; cbn [Join app] in *; by rewrite <- IH.
Qed.

Lemma Split_no_sep (s : gostring) (sep : ascii) :
  Forall (fun tok => sep ∉ tok) (Split s sep).
Proof.
  induction s as [|c s IH]; simpl.
  - constructor; [apply not_elem_of_nil | constructor].
  - destruct (decide (c = sep)) as [->|Hc].
    + constructor; [apply not_elem_of_nil | done].
    + pose proof (Split_nonempty s sep) as Hne.
      destruct (Split s sep) as [|tok rest]; [done|]. inversion IH; subst.
      constructor; [|done]. rewrite not_elem_of_cons. split; [congruence|done].
Qed.

Lemma Split_length (s : gostring) (sep : ascii) :
  length (Split s sep) = S (Count s sep).
Proof.
  unfold Count. induction s as [|c s IH]; [done|]. cbn [Split].
  pose proof (Split_nonempty s sep) as Hne.
  destruct (decide (c = sep)) as [->|Hc].
  - rewrite filter_cons_True by done. cbn [length]. by rewrite IH.
  - rewrite filter_cons_False by done.
    destruct (Split s sep) as [|tok rest]; [done|]. cbn [length] in *. done.
Qed.

(** [TrimRight] cuts a suffix made of bytes of the cutset, and what it
    leaves does not end with such a byte. *)
Lemma TrimRight_spec (s cutset : gostring) :
  exists suffix,
    s = TrimRight s cutset ++ suffix
    /\ Forall (fun c => c ∈ cutset) suffix
    /\ (forall body x, TrimRight s cutset = body ++ [x] -> x ∉ cutset).
Proof.
  induction s as [|c s (suffix & Hs & Hcut & Hlast)]; simpl.
  - exists []. split_and!; [done | constructor |]. by intros [|? ?] ?.
  - destruct (TrimRight s cutset) as [|y t] eqn:E.
    + destruct (bool_decide_reflect (c ∈ cutset)) as [Hin|Hout].
      * exists (c :: suffix). simpl in Hs. subst s.
        split_and!; [done | by constructor |]. by intros [|? ?] ?.
      * exists suffix. simpl in Hs. subst s.
        split_and!; [done | done |].
        intros [|? [|? ?]] x [=]; by subst.
    + exists suffix. split_and!; [by rewrite Hs at 1 | done |].
      intros body x Hb. destruct body as [|z body]; [done|].
      injection Hb as -> Hb. by eapply Hlast.
Qed.

Lemma TrimRight_app_cutset (s t cutset : gostring) :
  Forall (fun c => c ∈ cutset) t ->
  TrimRight (s ++ t) cutset = TrimRight s cutset.
Proof.
  intros Ht.
  assert (H0 : TrimRight t cutset = []).
  { induction Ht as [|c t Hc _ IH]; [done|]. simpl. rewrite IH.
    by rewrite bool_decide_eq_true_2. }
  induction s as [|c s IH]; simpl; [done|]. by rewrite IH.
Qed.

Lemma TrimRight_idemp (s cutset : gostring) :
  TrimRight (TrimRight s cutset) cutset = TrimRight s cutset.
Proof.
  destruct (TrimRight_spec s cutset) as (suffix & Hs & Hcut & _).
  rewrite Hs at 2. by rewrite TrimRight_app_cutset.
Qed.


(** ** Where the bytes of the input go *)

(** Once a read has failed, the stream and the buffer are empty and the
    bytes after the last delimiter are in [tsvRecord]. *)
Definition ended_inv (L0 : gostring) (st : State) : Prop :=
  match pc st with
  | PCClose _ | PCSignal _ | PCDone =>
      unread (reader st) (heap st) = [] /\ tsvRecord (reader st) = trailing L0
  | _ => True
  end.

Lemma ended_inv_step (fs : list gostring) (L0 : gostring) (e0 : goerror)
    (a : Action) (st st' : State) :
  reader_inv fs L0 e0 st -> ended_inv L0 st -> step a st = Ok st' ->
  ended_inv L0 st'.
Proof.
  intros (_ & Hl & _ & _ & _ & Hpc) Hend Hs. unfold ended_inv in *.
  destruct a; cbn [step] in Hs.
  - unfold reader_step in Hs. destruct (pc st) eqn:Hp.
    + pose proof (ReadString_spec entryDelimiter _ (heap st) Hl) as Hpost.
      destruct (ReadString _ _ _) as [[[l err] b'] h'].
      destruct Hpost as (_ & _ & _ & _ & _ & Hres). cbn [fst snd app] in Hres.
      injection Hs as <-. simpl_st.
      destruct Hpc as (_ & _ & _ & Htl).
      destruct (IndexByte _ _) eqn:Hi.
      * destruct Hres as (Hr & _). by simplify_eq.
      * destruct Hres as (Hr & Hb & Hp'). simplify_eq. unfold unread. simpl_st.
        rewrite Hb, Hp'. split; [done|].
        apply split_records_none in Hi as (_ & Hi). unfold unread in Htl.
        by rewrite <- Htl, Hi.
    + destruct (chan_close _); [|done..]. revert Hs.
      destruct (is_EOF err); cbv beta iota zeta; intros [= <-]; simpl_st; done.
    + unfold signal in Hs. repeat case_match; simplify_eq; simpl_st; done.
    + destruct (chan_send _ _); [|done..]. injection Hs as <-. by simpl_st.
    + done.
  - unfold worker_step in Hs. repeat case_match; simplify_eq; simpl_st; done.
  - unfold handoff_step in Hs. repeat case_match; simplify_eq; simpl_st; done.
  - unfold merger_step in Hs. repeat case_match; simplify_eq; simpl_st; done.
  - unfold decode_return_step, signal in Hs.
    repeat case_match; simplify_eq; simpl_st; done.
Qed.

Lemma run_ended_inv (r : TSVInputReader) (h : Store) (st0 st : State)
    (sched : list Action) :
  lasterr (tsvReader r) = None ->
  numProcessed r = 0 ->
  StreamDocument r h = Some st0 ->
  run sched st0 = Ok st ->
  ended_inv (unread r h) st.
Proof.
  intros Hl Hn Hst Hrun.
  pose proof (StreamDocument_reader_inv _ _ _ Hl Hn Hst) as Hinv0.
  assert (Hboth : reader_inv (fields r) (unread r h) (ending (inp h)) st
                  /\ ended_inv (unread r h) st); [|tauto].
  eapply (run_invariant (fun s => reader_inv (fields r) (unread r h) (ending (inp h)) s
                                   /\ ended_inv (unread r h) s)); [| |exact Hrun].
  - intros a s s' (Hi & He) Hs. split; [by eapply reader_inv_step|].
    by eapply ended_inv_step.
  - split; [done|]. unfold StreamDocument in Hst.
    destruct (make_chan _); cbn in Hst; [|done]. injection Hst as <-. done.
Qed.

(** The lines sent so far, one after the other. *)
Definition sent_bytes (tr : list Event) : gostring :=
  concat (TSVConverter.data <$> sent tr).

Lemma imap_data (fs : list gostring) (ls : list gostring) :
  TSVConverter.data <$> imap (nth_converter fs) ls = ls.
Proof.
  apply list_eq. intros i. rewrite list_lookup_fmap, list_lookup_imap.
  by destruct (ls !! i).
Qed.


(** X5: In every run of StreamDocument each record sent is one line of the
    input, ending with its only delimiter byte, and the records sent so
    far, laid end to end, are the beginning of the bytes that were unread
    when StreamDocument was called: lines are sent in the order of the
    input, whole and unaltered. *)
Theorem StreamDocument_sends_input_lines (r : TSVInputReader) (h : Store)
    (st0 st : State) (sched : list Action) :
  lasterr (tsvReader r) = None ->
  numProcessed r = 0 ->
  StreamDocument r h = Some st0 ->
  run sched st0 = Ok st ->
  Forall (fun c => exists body, TSVConverter.data c = body ++ [entryDelimiter]
                                /\ entryDelimiter ∉ body) (sent (trace st))
  /\ exists rest, unread r h = sent_bytes (trace st) ++ rest.
Proof.
  intros Hl Hn Hst Hrun.
  destruct (run_invs _ _ _ _ _ Hl Hn Hst Hrun) as ((_ & _ & _ & Hsent & _) & _).
  destruct (split_records_spec (unread r h)) as (Hcat & Hrecs & _).
  set (k := length (sent (trace st))) in *.
  split.
  - rewrite Hsent. apply Forall_lookup_2. intros i c Hi.
    rewrite list_lookup_imap in Hi.
    destruct (take _ _ !! i) as [line|] eqn:Hline; simplify_eq/=.
    apply lookup_take_Some in Hline as [Hline _].
    by eapply Forall_lookup_1 in Hrecs.
  - exists (concat (drop k (complete_records (unread r h))) ++ trailing (unread r h)).
    unfold sent_bytes. rewrite Hsent, imap_data, app_assoc, <- concat_app, take_drop.
    done.
Qed.

(** X6: When the reading goroutine has ended, by io.EOF or by another error,
    every byte that was unread at the call is accounted for: the lines
    sent, followed by the unterminated rest that the failed read left in
    [tsvRecord]; the stream and the buffer are empty. *)
Theorem StreamDocument_consumes_whole_input (r : TSVInputReader) (h : Store)
    (st0 st : State) (sched : list Action) :
  lasterr (tsvReader r) = None ->
  numProcessed r = 0 ->
  StreamDocument r h = Some st0 ->
  run sched st0 = Ok st ->
  pc st = PCDone ->
  unread r h = sent_bytes (trace st) ++ tsvRecord (reader st)
  /\ unread (reader st) (heap st) = []
  /\ (entryDelimiter ∉ tsvRecord (reader st)).
Proof.
  intros Hl Hn Hst Hrun Hpc.
  destruct (run_invs _ _ _ _ _ Hl Hn Hst Hrun) as ((_ & _ & _ & Hsent & _ & Hp) & _).
  pose proof (run_ended_inv _ _ _ _ _ Hl Hn Hst Hrun) as Hend.
  unfold ended_inv in Hend. rewrite Hpc in Hp, Hend.
  destruct Hp as (_ & _ & Hk). destruct Hend as (Hun & Hrec).
  destruct (split_records_spec (unread r h)) as (Hcat & _ & Htl).
  split_and!; [|done|by rewrite Hrec].
  unfold sent_bytes. rewrite Hsent, imap_data, Hk, firstn_all, Hrec. done.
Qed.

(** X7: While the reading loop runs, [numProcessed] is the number of records
    sent so far (as a uint64): the record the goroutine is about to send
    carries that number as its index, and the count is raised only after
    the send (lines 93 to 98). *)
Theorem StreamDocument_count_tracks_sends (r : TSVInputReader) (h : Store)
    (st0 st : State) (sched : list Action) :
  lasterr (tsvReader r) = None ->
  numProcessed r = 0 ->
  StreamDocument r h = Some st0 ->
  run sched st0 = Ok st ->
  let k := Z.of_nat (length (sent (trace st))) in
  (pc st = PCRead -> numProcessed (reader st) = k mod 2 ^ 64)
  /\ (forall c, pc st = PCSend c ->
        numProcessed (reader st) = k mod 2 ^ 64
        /\ TSVConverter.index c = numProcessed (reader st)
        /\ TSVConverter.fields c = fields r)
  /\ (forall err, pc st = PCClose err -> numProcessed (reader st) = k mod 2 ^ 64).
Proof.
  intros Hl Hn Hst Hrun k.
  destruct (run_invs _ _ _ _ _ Hl Hn Hst Hrun) as ((_ & _ & _ & Hsent & _ & Hp) & _).
  split_and!.
  - intros Hpc. rewrite Hpc in Hp. tauto.
  - intros c Hpc. rewrite Hpc in Hp.
    destruct Hp as (_ & Hnum & (line & Hline & ->) & _).
    cbn [nth_converter TSVConverter.index TSVConverter.fields].
    split_and!; done.
  - intros err Hpc. rewrite Hpc in Hp. tauto.
Qed.

(** X8: Every document that reaches the consumer is the conversion of one line
    of the input with that line's position as its index: the fields of the
    reader, the tokens of the line without its trailing CR and LF bytes,
    and the index of the line. *)
Theorem StreamDocument_outcomes_are_conversions (r : TSVInputReader) (h : Store)
    (st0 st : State) (sched : list Action) (o : ConversionOutcome) :
  lasterr (tsvReader r) = None ->
  numProcessed r = 0 ->
  StreamDocument r h = Some st0 ->
  run sched st0 = Ok st ->
  o ∈ outcomes (trace st) ->
  exists (i : nat) (line : gostring),
    complete_records (unread r h) !! i = Some line
    /\ (i < length (sent (trace st)))%nat
    /\ seq o = Z.of_nat i mod 2 ^ 64
    /\ result o = tokensToBSON (fields r)
                    (Split (TrimRight line crlf) tokenSeparator)
                    (Z.of_nat i mod 2 ^ 64).
Proof.
  intros Hl Hn Hst Hrun Ho.
  destruct (run_invs _ _ _ _ _ Hl Hn Hst Hrun)
    as ((_ & _ & _ & Hsent & _) & _ & _ & (_ & _ & _ & _ & _ & Hfrom)).
  destruct (Hfrom o Ho) as (c & Hc & ->).
  rewrite Hsent in Hc. apply list_elem_of_lookup in Hc as (i & Hi).
  rewrite list_lookup_imap in Hi.
  destruct (take _ _ !! i) as [line|] eqn:Hline; simplify_eq/=.
  apply lookup_take_Some in Hline as [Hline Hlt].
  exists i, line. done.
Qed.

(** X9: With at least one decoder StreamDocument can always return: for every
    input there is a schedule under which every complete line is sent and
    converted, both goroutines signal, and the value returned is nil after
    io.EOF and the read error of the next entry otherwise. *)
Theorem StreamDocument_can_return (r : TSVInputReader) (h : Store) :
  lasterr (tsvReader r) = None ->
  numProcessed r = 0 ->
  1 <= numDecoders r ->
  let k := length (complete_records (unread r h)) in
  exists st0 sched st,
    StreamDocument r h = Some st0
    /\ run sched st0 = Ok st
    /\ pc st = PCDone /\ decodeDone st = true
    /\ length (sent (trace st)) = k
    /\ length (outcomes (trace st)) = k
    /\ retErr st
       = Some (if is_EOF (ending (inp h)) then None
               else Some (read_error ((Z.of_nat k + 1) mod 2 ^ 64) (ending (inp h)))).
Proof.
  intros Hl Hn Hnd k.
  destruct (fair_schedule_completes r h Hl Hn Hnd) as (st0 & st & Hst & Hrun & _ & Hfin).
  destruct Hfin as (Hpc & Hdd & _ & Hret & Hs & Ho).
  eexists st0, _, st. split; [done|]. split; [exact Hrun|].
  split_and!; done.
Qed.


(** C10: [ReadAndValidateHeader] reads one line with [ReadString]. If the
    read fails it returns that error and leaves the field list as it was.
    Otherwise the new field list is the old one, kept in front, followed by
    one name per token of the line, and the result is that of validating
    the whole list. The tokens are the line cut at its tabs: joined by tabs
    they give the line back, none contains a tab, and there is one more of
    them than tabs. Each name is its token without the trailing CR and LF
    bytes: what is cut is made of CR and LF only, and the name does not end
    with either. The counters of the reader are not touched. *)
Theorem ReadAndValidateHeader_appends_fields (r : TSVInputReader) (h : Store) :
  let rs := ReadString entryDelimiter (tsvReader r) h in
  let header := rs.1.1.1 in
  let o := ReadAndValidateHeader r h in
  let toks := Split header tokenSeparator in
  let names := (fun tok => TrimRight tok crlf) <$> toks in
  o.2 = rs.2 /\ tsvReader o.1.2 = rs.1.2
  /\ numProcessed o.1.2 = numProcessed r /\ numDecoders o.1.2 = numDecoders r
  /\ (forall e, rs.1.1.2 = Some e -> o.1.1 = Some e /\ fields o.1.2 = fields r)
  /\ (rs.1.1.2 = None ->
        fields o.1.2 = fields r ++ names
        /\ o.1.1 = validateReaderFields (fields r ++ names)
        /\ Join toks tokenSeparator = header
        /\ length toks = S (Count header tokenSeparator)
        /\ Forall (fun tok => tokenSeparator ∉ tok) toks
        /\ Forall2 (fun name tok =>
                      (exists suffix, tok = name ++ suffix
                                      /\ Forall (fun c => c = CR \/ c = LF) suffix)
                      /\ forall body x, name = body ++ [x] -> x <> CR /\ x <> LF)
                   names toks).
Proof.
  cbv zeta. unfold ReadAndValidateHeader.
  destruct (ReadString _ _ _) as [[[header err] b'] h'].
  cbn [fst snd]. destruct err as [e|]; simpl_st.
  - split_and!; try done; by intros ? [= <-].
  - rewrite fold_append_trim. split_and!; try done. intros _.
    split_and!; try done.
    + apply Split_Join.
    + apply Split_length.
    + apply Split_no_sep.
    + apply Forall2_fmap_l, Forall_Forall2_diag, Forall_forall. intros tok _.
      destruct (TrimRight_spec tok crlf) as (suffix & Hs & Hcut & Hlast).
      split.
      * exists suffix. split; [done|]. eapply Forall_impl; [exact Hcut|].
        intros x Hx. unfold crlf in Hx. rewrite !elem_of_cons in Hx.
        destruct Hx as [->|[->|Hx]]; [by left | by right | by apply elem_of_nil in Hx].
      * intros body x Hb. apply Hlast in Hb. unfold crlf in Hb.
        rewrite !not_elem_of_cons in Hb. split; intros ->; tauto.
Qed.

(** ** The header, in terms of the input *)

(** X1: [ReadAndValidateHeader] takes exactly the first line of the unread
    input. If there is a delimiter, the line up to and including it is
    consumed, its tokens are appended to the fields and the rest of the
    input stays unread; if there is none, even when bytes are present, the
    call returns the error that ends the stream, appends nothing and leaves
    nothing unread. Either way no error stays latched and the counters are
    as before, so StreamDocument can follow. *)
Theorem ReadAndValidateHeader_takes_first_line (r : TSVInputReader) (h : Store) :
  lasterr (tsvReader r) = None ->
  let L := unread r h in
  let o := ReadAndValidateHeader r h in
  lasterr (tsvReader o.1.2) = None
  /\ numProcessed o.1.2 = numProcessed r
  /\ numDecoders o.1.2 = numDecoders r
  /\ ending (inp o.2) = ending (inp h)
  /\ match IndexByte L entryDelimiter with
     | Some i =>
         let names := (fun tok => TrimRight tok crlf)
                        <$> Split (take (S i) L) tokenSeparator in
         o.1.1 = validateReaderFields (fields r ++ names)
         /\ fields o.1.2 = fields r ++ names
         /\ unread o.1.2 o.2 = drop (S i) L
     | None =>
         o.1.1 = Some (ending (inp h))
         /\ fields o.1.2 = fields r
         /\ unread o.1.2 o.2 = []
     end.
Proof.
  intros Hl L o. subst o. unfold ReadAndValidateHeader.
  pose proof (ReadString_spec entryDelimiter _ h Hl) as Hpost.
  destruct (ReadString _ _ _) as [[[header err] b'] h'].
  destruct Hpost as (_ & Hl' & He & _ & _ & Hres). cbn [fst snd app] in *.
  fold (unread r h) in Hres. fold L in Hres.
  destruct (IndexByte L entryDelimiter) as [i|].
  - destruct Hres as (Hr & Hun). injection Hr as -> ->.
    cbv zeta. simpl_st. rewrite fold_append_trim. unfold unread. simpl_st. done.
  - destruct Hres as (Hr & Hb & Hp). injection Hr as -> ->.
    simpl_st. unfold unread. simpl_st. rewrite Hb, Hp. done.
Qed.

(** X2: The names a header line contributes: one per tab of the line plus
    one; none contains a tab or ends with CR or LF; and every name is the
    beginning of its token, so nothing is invented. *)
Theorem ReadAndValidateHeader_field_names (r : TSVInputReader) (h : Store) :
  let rs := ReadString entryDelimiter (tsvReader r) h in
  let header := rs.1.1.1 in
  let o := ReadAndValidateHeader r h in
  rs.1.1.2 = None ->
  exists names,
    fields o.1.2 = fields r ++ names
    /\ length names = S (Count header tokenSeparator)
    /\ Forall (fun name =>
                 (tokenSeparator ∉ name)
                 /\ forall body x, name = body ++ [x] -> x <> CR /\ x <> LF) names
    /\ Forall2 (fun name tok => exists suffix, tok = name ++ suffix)
               names (Split header tokenSeparator)
    /\ Join (Split header tokenSeparator) tokenSeparator = header.
Proof.
  intros rs header o Herr. subst o header rs. unfold ReadAndValidateHeader.
  destruct (ReadString _ _ _) as [[[header err] b'] h'].
  cbn [fst snd] in *. subst err. simpl_st. rewrite fold_append_trim.
  eexists. split; [reflexivity|].
  split; [by rewrite length_fmap, Split_length|].
  split_and!.
  - apply Forall_fmap. eapply Forall_impl; [apply Split_no_sep|].
    intros tok Htok. cbn.
    destruct (TrimRight_spec tok crlf) as (suffix & Hs & _ & Hlast).
    split.
    + intros Hin. apply Htok. rewrite Hs. apply elem_of_app. by left.
    + intros body x Hb. apply Hlast in Hb. unfold crlf in Hb.
      rewrite !not_elem_of_cons in Hb. split; intros ->; tauto.
  - apply Forall2_fmap_l, Forall_Forall2_diag, Forall_forall. intros tok _.
    destruct (TrimRight_spec tok crlf) as (suffix & Hs & _). by exists suffix.
  - apply Split_Join.
Qed.

(** ** Convert *)

(** X3: [Convert] does not see the line ending: a record and the same record
    followed by any run of CR and LF bytes convert to the same document. *)
Theorem Convert_ignores_line_ending (fs : list gostring) (d t : gostring) (i : Z) :
  Forall (fun c => c = CR \/ c = LF) t ->
  Convert {| TSVConverter.fields := fs; TSVConverter.data := d ++ t;
             TSVConverter.index := i |}
  = Convert {| TSVConverter.fields := fs; TSVConverter.data := d;
               TSVConverter.index := i |}.
Proof.
  intros Ht. unfold Convert. cbn [TSVConverter.fields TSVConverter.data TSVConverter.index].
  rewrite TrimRight_app_cutset; [done|].
  eapply Forall_impl; [exact Ht|]. intros c [->| ->]; unfold crlf.
  - left.
  - right. left.
Qed.

(** X4: The tokens [Convert] hands to [tokensToBSON], joined by tabs, are the
    record without its trailing CR and LF bytes; there is one more token
    than tabs, none contains a tab, and the fields and the index are passed
    on as they are. *)
Theorem Convert_tokens (c : TSVConverter.t) :
  let line := TrimRight (TSVConverter.data c) crlf in
  exists toks,
    Convert c = tokensToBSON (TSVConverter.fields c) toks (TSVConverter.index c)
    /\ Join toks tokenSeparator = line
    /\ length toks = S (Count line tokenSeparator)
    /\ Forall (fun tok => tokenSeparator ∉ tok) toks
    /\ (exists suffix, TSVConverter.data c = line ++ suffix
                       /\ Forall (fun x => x = CR \/ x = LF) suffix)
    /\ (forall body x, line = body ++ [x] -> x <> CR /\ x <> LF).
Proof.
  intros line. exists (Split line tokenSeparator).
  split_and!.
  - done.
  - apply Split_Join.
  - apply Split_length.
  - apply Split_no_sep.
  - destruct (TrimRight_spec (TSVConverter.data c) crlf) as (suffix & Hs & Hcut & _).
    exists suffix. split; [done|]. eapply Forall_impl; [exact Hcut|].
    intros x Hx. unfold crlf in Hx. rewrite !elem_of_cons in Hx.
    destruct Hx as [->|[->|Hx]]; [by left | by right | by apply elem_of_nil in Hx].
  - intros body x Hb.
    destruct (TrimRight_spec (TSVConverter.data c) crlf) as (_ & _ & _ & Hlast).
    apply Hlast in Hb. unfold crlf in Hb.
    rewrite !not_elem_of_cons in Hb. split; intros ->; tauto.
Qed.


(** ** From the constructor to the records *)

(** X10: A reader made by [NewTSVInputReader] whose header has been read and
    accepted never sends the header line as a record: the [j]-th record
    sent is line [j+1] of the stream, with index [j], and it carries the
    given fields followed by the names of the header line (line 0). *)
Theorem header_line_is_not_a_record (fs : list gostring) (i : Input) (n : Z)
    (st0 st : State) (sched : list Action) (j : nat) (c : TSVConverter.t) :
  let opened :=
    ReadAndValidateHeader (NewTSVInputReader fs i n).1 (NewTSVInputReader fs i n).2 in
  opened.1.1 = None ->
  StreamDocument opened.1.2 opened.2 = Some st0 ->
  run sched st0 = Ok st ->
  sent (trace st) !! j = Some c ->
  exists header,
    complete_records (pending i) !! 0%nat = Some header
    /\ complete_records (pending i) !! S j = Some (TSVConverter.data c)
    /\ TSVConverter.fields c
       = fs ++ ((fun tok => TrimRight tok crlf) <$> Split header tokenSeparator)
    /\ TSVConverter.index c = Z.of_nat j mod 2 ^ 64.
Proof.
  cbv zeta. unfold ReadAndValidateHeader, NewTSVInputReader. cbn [fst snd tsvReader].
  pose proof (ReadString_spec entryDelimiter (bufio_NewReader RefIn)
                {| inp := i; bytesRead := 0 |} eq_refl) as Hpost.
  destruct (ReadString _ _ _) as [[[header err] b'] h'].
  destruct Hpost as (_ & Hl & _ & _ & _ & Hres).
  cbn [fst snd bufio_NewReader rd buf inp bytesRead app] in *.
  destruct err as [e|]; cbn [fst snd]; [done|].
  intros _ Hst Hrun Hj.
  destruct (IndexByte (pending i) entryDelimiter) as [k|] eqn:Hk;
    [|by destruct Hres as (? & _)].
  destruct Hres as (Hr & Hun). injection Hr as ->.
  apply split_records_cut in Hk as (Hcut & _).
  match type of Hst with StreamDocument ?r1 _ = _ =>
    assert (Hl1 : lasterr (tsvReader r1) = None) by (by simpl_st);
    assert (Hn1 : numProcessed r1 = 0) by (by simpl_st);
    destruct (run_invs _ _ _ _ _ Hl1 Hn1 Hst Hrun) as ((_ & _ & _ & Hsent & _) & _)
  end.
  simpl_st. unfold unread in Hsent. simpl_st. rewrite Hun in Hsent.
  rewrite Hsent, list_lookup_imap in Hj.
  destruct (take _ _ !! j) as [line|] eqn:Hline; simplify_eq/=.
  apply lookup_take_Some in Hline as [Hline _].
  eexists. rewrite Hcut. split; [reflexivity|]. split; [exact Hline|].
  split; [|done]. by rewrite fold_append_trim.
Qed.


(** ** The reading loop ends *)

(** The moves of the reading goroutine in a schedule. *)
Definition is_reader_action (a : Action) : bool :=
  match a with
  | ActReader | ActHandoff _ => true
  | _ => false
  end.

Fixpoint reader_moves (sched : list Action) : nat :=
  match sched with
  | [] => 0
  | a :: sched' => ((if is_reader_action a then 1 else 0) + reader_moves sched')%nat
  end.

(** The moves the reading goroutine still has: a read and a send for each
    line not yet sent, then the failed read, the close and the signal. *)
Definition moves_left (n : nat) (st : State) : nat :=
  let k := length (sent (trace st)) in
  match pc st with
  | PCRead => (2 * (n - k) + 3)%nat
  | PCSend _ => (2 * (n - k) + 2)%nat
  | PCClose _ => 2%nat
  | PCSignal _ => 1%nat
  | PCDone => 0%nat
  end.

Lemma moves_left_step (fs : list gostring) (L0 : gostring) (e0 : goerror)
    (a : Action) (st st' : State) :
  reader_inv fs L0 e0 st -> step a st = Ok st' ->
  (moves_left (length (complete_records L0)) st'
   + (if is_reader_action a then 1 else 0)
   <= moves_left (length (complete_records L0)) st)%nat.
Proof.
  intros Hinv Hs.
  pose proof (reader_inv_step _ _ _ _ _ _ Hinv Hs) as Hinv'.
  destruct Hinv as (_ & _ & _ & _ & _ & Hpc).
  destruct Hinv' as (_ & _ & _ & _ & _ & Hpc').
  unfold moves_left.
  destruct a; cbn [step is_reader_action] in *.
  - unfold reader_step in Hs. destruct (pc st) eqn:Hp.
    + destruct (ReadString _ _ _) as [[[l err] b'] h'].
      injection Hs as <-. clear Hpc Hpc'. destruct err; simpl_st; [lia|]. lia.
    + clear Hpc Hpc'. destruct (chan_close _); [|done..]. revert Hs.
      destruct (is_EOF err); cbv beta iota zeta; intros [= <-]; simpl_st; lia.
    + clear Hpc Hpc'. unfold signal in Hs.
      repeat case_match; simplify_eq; simpl_st; lia.
    + destruct (chan_send _ _); [|done..]. injection Hs as <-. simpl_st.
      destruct Hpc as (_ & _ & (line & Hline%lookup_lt_Some & _) & _).
      clear Hpc'. trace_simpl. rewrite length_app. cbn [length]. lia.
    + done.
  - clear Hpc Hpc'. unfold worker_step in Hs.
    repeat case_match; simplify_eq; simpl_st; trace_simpl; rewrite ?app_nil_r; lia.
  - unfold handoff_step in Hs. destruct (pc st) eqn:Hp; try done.
    repeat case_match; simplify_eq; simpl_st.
    destruct Hpc as (_ & _ & (line & Hline%lookup_lt_Some & _) & _).
    clear Hpc'. trace_simpl. rewrite length_app. cbn [length]. lia.
  - clear Hpc Hpc'. unfold merger_step in Hs.
    repeat case_match; simplify_eq; simpl_st; trace_simpl; rewrite ?app_nil_r; lia.
  - clear Hpc Hpc'. unfold decode_return_step, signal in Hs.
    repeat case_match; simplify_eq; simpl_st; trace_simpl; rewrite ?app_nil_r; lia.
Qed.

Lemma moves_left_run (fs : list gostring) (L0 : gostring) (e0 : goerror)
    (sched : list Action) :
  forall st st', reader_inv fs L0 e0 st -> run sched st = Ok st' ->
    (moves_left (length (complete_records L0)) st' + reader_moves sched
     <= moves_left (length (complete_records L0)) st)%nat.
Proof.
  induction sched as [|a sched IH]; intros st st' Hinv Hrun; cbn [run reader_moves] in *.
  - injection Hrun as <-. lia.
  - destruct (step a st) as [st1| |] eqn:Ha; try done.
    pose proof (moves_left_step _ _ _ _ _ _ Hinv Ha).
    pose proof (reader_inv_step _ _ _ _ _ _ Hinv Ha) as Hinv1.
    specialize (IH _ _ Hinv1 Hrun). lia.
Qed.

(** X11: The reading goroutine cannot run forever: over an input with [n]
    complete lines it makes at most 2n+3 moves in any schedule (a read and
    a send per line, the failed read, the close and the signal), and once
    it has made that many it has ended. *)
Theorem StreamDocument_reader_terminates (r : TSVInputReader) (h : Store)
    (st0 st : State) (sched : list Action) :
  lasterr (tsvReader r) = None ->
  numProcessed r = 0 ->
  StreamDocument r h = Some st0 ->
  run sched st0 = Ok st ->
  let n := length (complete_records (unread r h)) in
  (reader_moves sched <= 2 * n + 3)%nat
  /\ (reader_moves sched = (2 * n + 3)%nat -> pc st = PCDone)
  /\ (pc st = PCDone -> forall a, is_reader_action a = true -> step a st = Blocked).
Proof.
  intros Hl Hn Hst Hrun n.
  pose proof (StreamDocument_reader_inv _ _ _ Hl Hn Hst) as Hinv0.
  pose proof (moves_left_run _ _ _ _ _ _ Hinv0 Hrun) as Hm. fold n in Hm.
  assert (H0 : moves_left n st0 = (2 * n + 3)%nat).
  { unfold StreamDocument in Hst. destruct (make_chan _); cbn in Hst; [|done].
    injection Hst as <-. unfold moves_left. simpl_st.
    change (sent []) with (@nil TSVConverter.t). cbn [length]. lia. }
  rewrite H0 in Hm. split_and!.
  - lia.
  - intros Heq. unfold moves_left in Hm. destruct (pc st); try done; lia.
  - intros Hpc a Ha. destruct a; try done; cbn [step].
    + unfold reader_step. by rewrite Hpc.
    + unfold handoff_step. by rewrite Hpc.
Qed.


End Pipeline.

(** * A worked import *)

(** Stand-ins for the two functions of the package that tsv.go calls:
    documents are lists of field and token, and a line with more tokens
    than fields is an error of its document. *)
Definition Doc : Type := list (gostring * gostring).

Definition example_tokensToBSON (fs toks : list gostring) (i : Z)
  : Doc * option goerror :=
  (zip fs toks,
   if (length toks <=? length fs)%nat then None
   else Some (ErrorString (str "too many fields"))).

Definition example_validate (fs : list gostring) : option goerror := None.

(** A header, two records and an unterminated third line. *)
Definition example_bytes : gostring :=
  str "a" ++ [TAB] ++ str "b" ++ [CR; LF]
  ++ str "1" ++ [TAB] ++ str "2" ++ [LF]
  ++ str "3" ++ [TAB] ++ str "4" ++ [LF]
  ++ str "zz".

Definition example_in (e : goerror) : Input :=
  {| pending := example_bytes; offset := 0; ending := e |}.

Definition disk_failure : goerror := ErrorString (str "disk failure").

(** The reader after [NewTSVInputReader] and [ReadAndValidateHeader]. *)
Definition example_opened (n : Z) (e : goerror)
  : option goerror * TSVInputReader * Store :=
  ReadAndValidateHeader example_validate
    (NewTSVInputReader [] (example_in e) n).1
    (NewTSVInputReader [] (example_in e) n).2.

Definition example_reader (e : goerror) : TSVInputReader := (example_opened 2 e).1.2.
Definition example_heap (e : goerror) : Store := (example_opened 2 e).2.

Definition example_schedule : list Action :=
  [ActReader; ActReader; ActReader; ActReader;
   ActWorker 1; ActWorker 0; ActWorker 0; ActWorker 1;
   ActMerger; ActMerger;
   ActReader; ActReader; ActReader;
   ActWorker 0; ActWorker 1; ActDecodeReturn].

Definition start_of (r : TSVInputReader) (h : Store) : State Doc :=
  default {| reader := r; heap := h; pc := PCDone;
             tsvRecordChan := {| queue := []; capacity := 0; closed := true |};
             pool := streamDocuments_init Doc 0; decodeDone := true;
             tsvErrChan := []; trace := [] |}
          (StreamDocument Doc r h).

Definition after (sched : list Action) (st : State Doc) : State Doc :=
  match run Doc example_tokensToBSON true sched st with
  | Ok st' => st'
  | _ => st
  end.

Definition example_start (e : goerror) : State Doc :=
  start_of (example_reader e) (example_heap e).

Definition example_end (e : goerror) : State Doc :=
  after example_schedule (example_start e).

(** The same input with a single decoder, when the reading goroutine has
    queued the first record and holds the second. *)
Definition narrow_reader : TSVInputReader := (example_opened 1 EOF).1.2.
Definition narrow_heap : Store := (example_opened 1 EOF).2.
Definition narrow_start : State Doc := start_of narrow_reader narrow_heap.
Definition narrow_full : State Doc :=
  after [ActReader; ActReader; ActReader] narrow_start.


Definition example_record1 : TSVConverter.t :=
  {| TSVConverter.fields := [str "a"; str "b"];
     TSVConverter.data := str "3" ++ [TAB] ++ str "4" ++ [LF];
     TSVConverter.index := 1 |}.

(** The second record of the worked import is sent with index 1. *)
Lemma StreamDocument_indices_in_order_witness :
  sent Doc (trace Doc (example_end EOF)) !! 1%nat = Some example_record1
  /\ TSVConverter.index example_record1 = 1.
Proof.
  split; [by vm_compute|].
  destruct (StreamDocument_indices_in_order Doc example_tokensToBSON true
              (example_reader EOF) (example_heap EOF) (example_start EOF)
              (example_end EOF) example_schedule 1 example_record1)
    as (_ & Hi & _); [by vm_compute..|].
  apply Hi. lia.
Defined.


(** In the worked import that ends with a disk failure, the close comes
    before the signal of the reading stage and nothing is sent after it. *)
Lemma StreamDocument_close_before_signal_witness :
  EvClose Doc ∈ take 7 (trace Doc (example_end disk_failure))
  /\ sent Doc (drop 7 (trace Doc (example_end disk_failure))) = [].
Proof.
  destruct (StreamDocument_close_before_signal Doc example_tokensToBSON
              example_validate true
              (example_reader disk_failure) (example_heap disk_failure)
              (example_start disk_failure) (example_end disk_failure)
              example_schedule)
    as (Hsig & Hclose & _); [by vm_compute..|].
  split.
  - apply (Hsig _ (drop 8 (trace Doc (example_end disk_failure)))
             (Some (read_error 3 disk_failure))).
    by vm_compute.
  - apply (Hclose (take 6 (trace Doc (example_end disk_failure)))).
    by vm_compute.
Defined.


(** With one decoder and one record queued, the send of the second record
    waits. *)
Lemma StreamDocument_channel_capacity_witness :
  capacity (tsvRecordChan Doc narrow_full) = 1%nat
  /\ length (queue (tsvRecordChan Doc narrow_full)) = 1%nat
  /\ reader_step Doc narrow_full = Blocked.
Proof.
  destruct (StreamDocument_channel_capacity Doc example_tokensToBSON true
              narrow_reader narrow_heap narrow_start)
    as (_ & _ & _ & Hrun); [by vm_compute..|].
  destruct (Hrun [ActReader; ActReader; ActReader] narrow_full)
    as (Hcap & _ & Hfull & _); [by vm_compute|].
  split; [exact Hcap|]. split; [by vm_compute|].
  destruct Hfull as (Hblocked & _); [by vm_compute|].
  eapply Hblocked. by vm_compute.
Defined.

(** The worked import that ends with a disk failure after two records
    returns the error of entry #3. *)
Lemma StreamDocument_read_error_ordinal_witness :
  retErr Doc (example_end disk_failure) = Some (Some (read_error 3 disk_failure))
  /\ Error (read_error 3 disk_failure) = str "read error on entry #3: disk failure"
  /\ (length (outcomes Doc (trace Doc (example_end disk_failure))) <= 2)%nat.
Proof.
  destruct (StreamDocument_read_error_ordinal Doc example_tokensToBSON true
              (example_reader disk_failure) (example_heap disk_failure)
              (example_start disk_failure))
    as (Htxt & _ & Hsafe & _); [by vm_compute..|].
  destruct (Hsafe example_schedule (example_end disk_failure))
    as (_ & Hout & _ & Hret); [by vm_compute|].
  split; [by vm_compute|]. split; [by vm_compute|].
  vm_compute in Hout. vm_compute. exact Hout.
Defined.


(** After the disk failure the count is 3 for two records sent. *)
Lemma StreamDocument_processed_count_witness :
  length (sent Doc (trace Doc (example_end disk_failure))) = 2%nat
  /\ numProcessed (reader Doc (example_end disk_failure)) = (2 + 1) mod 2 ^ 64.
Proof.
  destruct (StreamDocument_processed_count Doc example_tokensToBSON true
              (example_reader disk_failure) (example_heap disk_failure)
              (example_start disk_failure) (example_end disk_failure)
              example_schedule)
    as (_ & Hcount); [by vm_compute..|].
  split; [by vm_compute|]. exact Hcount.
Defined.

(** A run that ends by a read error: two records were handed to the decode
    channel and [numProcessed] is 3. *)
Lemma StreamDocument_processed_count_counterexample :
  StreamDocument Doc (example_reader disk_failure) (example_heap disk_failure)
  = Some (example_start disk_failure)
  /\ run Doc example_tokensToBSON true example_schedule (example_start disk_failure)
     = Ok (example_end disk_failure)
  /\ pc Doc (example_end disk_failure) = PCDone
  /\ length (sent Doc (trace Doc (example_end disk_failure))) = 2%nat
  /\ numProcessed (reader Doc (example_end disk_failure)) = 3
  /\ numProcessed (reader Doc (example_end disk_failure))
     <> Z.of_nat (length (sent Doc (trace Doc (example_end disk_failure)))).
Proof. split_and!; by vm_compute. Qed.

(** The worked import consumes its 15 bytes and [Size] still reports 0. *)
Lemma NewTSVInputReader_Size_stays_zero_witness :
  Size (heap Doc (example_end EOF)) = 0
  /\ offset (inp (heap Doc (example_end EOF))) = 15%nat.
Proof.
  destruct (NewTSVInputReader_Size_stays_zero Doc example_tokensToBSON
              example_validate true [] (example_in EOF) 2
              (example_start EOF) (example_end EOF) example_schedule)
    as (_ & _ & Hsize & _); [by vm_compute..|].
  split; [exact Hsize | by vm_compute].
Defined.

(** ** The worked import, continued *)

(** The two records of the worked import are its second and third line. *)
Lemma StreamDocument_sends_input_lines_witness :
  sent_bytes Doc (trace Doc (example_end EOF))
  = str "1" ++ [TAB] ++ str "2" ++ [LF] ++ str "3" ++ [TAB] ++ str "4" ++ [LF]
  /\ exists rest,
       unread (example_reader EOF) (example_heap EOF)
       = sent_bytes Doc (trace Doc (example_end EOF)) ++ rest.
Proof.
  split; [by vm_compute|].
  destruct (StreamDocument_sends_input_lines Doc example_tokensToBSON true
              (example_reader EOF) (example_heap EOF) (example_start EOF)
              (example_end EOF) example_schedule)
    as (_ & Hrest); [by vm_compute..|].
  exact Hrest.
Defined.

(** At the end of the worked import the unterminated line is in
    [tsvRecord] and nothing is left unread. *)
Lemma StreamDocument_consumes_whole_input_witness :
  tsvRecord (reader Doc (example_end EOF)) = str "zz"
  /\ unread (example_reader EOF) (example_heap EOF)
     = sent_bytes Doc (trace Doc (example_end EOF))
       ++ tsvRecord (reader Doc (example_end EOF))
  /\ unread (reader Doc (example_end EOF)) (heap Doc (example_end EOF)) = [].
Proof.
  split; [by vm_compute|].
  destruct (StreamDocument_consumes_whole_input Doc example_tokensToBSON true
              (example_reader EOF) (example_heap EOF) (example_start EOF)
              (example_end EOF) example_schedule)
    as (Hall & Hnone & _); [by vm_compute..|].
  split; [exact Hall | exact Hnone].
Defined.

(** After three moves of the reading goroutine of the narrow import, one
    record is sent and the second, with index 1, waits. *)
Lemma StreamDocument_count_tracks_sends_witness :
  pc Doc narrow_full = PCSend example_record1
  /\ numProcessed (reader Doc narrow_full) = 1 mod 2 ^ 64
  /\ TSVConverter.index example_record1 = numProcessed (reader Doc narrow_full).
Proof.
  assert (Hpc : pc Doc narrow_full = PCSend example_record1) by (by vm_compute).
  split; [exact Hpc|].
  destruct (StreamDocument_count_tracks_sends Doc example_tokensToBSON true
              narrow_reader narrow_heap narrow_start narrow_full
              [ActReader; ActReader; ActReader])
    as (_ & Hsend & _); [by vm_compute..|].
  destruct (Hsend example_record1 Hpc) as (Hnum & Hidx & _).
  split; [exact Hnum | exact Hidx].
Defined.

Definition example_outcome1 : ConversionOutcome Doc :=
  {| seq := 1; result := ([(str "a", str "3"); (str "b", str "4")], None) |}.

(** The second document of the worked import is the conversion of the
    line of index 1. *)
Lemma StreamDocument_outcomes_are_conversions_witness :
  exists (i : nat) (line : gostring),
    complete_records (unread (example_reader EOF) (example_heap EOF)) !! i = Some line
    /\ (i < length (sent Doc (trace Doc (example_end EOF))))%nat
    /\ seq Doc example_outcome1 = Z.of_nat i mod 2 ^ 64
    /\ result Doc example_outcome1
       = example_tokensToBSON (fields (example_reader EOF))
           (Split (TrimRight line crlf) tokenSeparator) (Z.of_nat i mod 2 ^ 64).
Proof.
  apply (StreamDocument_outcomes_are_conversions Doc example_tokensToBSON true
           (example_reader EOF) (example_heap EOF) (example_start EOF)
           (example_end EOF) example_schedule example_outcome1);
    [by vm_compute..|].
  vm_compute. do 1 right. left.
Defined.

(** The worked import that ends with a disk failure can return: two
    records, two documents and the error of the third entry. *)
Lemma StreamDocument_can_return_witness :
  exists st0 sched st,
    StreamDocument Doc (example_reader disk_failure) (example_heap disk_failure)
    = Some st0
    /\ run Doc example_tokensToBSON true sched st0 = Ok st
    /\ pc Doc st = PCDone /\ decodeDone Doc st = true
    /\ length (sent Doc (trace Doc st)) = 2%nat
    /\ length (outcomes Doc (trace Doc st)) = 2%nat
    /\ retErr Doc st = Some (Some (read_error 3 disk_failure)).
Proof.
  apply (StreamDocument_can_return Doc example_tokensToBSON true
           (example_reader disk_failure) (example_heap disk_failure));
    by vm_compute.
Defined.

(** The header of the worked example gives the fields a and b and leaves
    the three other lines unread. *)
Lemma ReadAndValidateHeader_takes_first_line_witness :
  fields (example_reader EOF) = [str "a"; str "b"]
  /\ lasterr (tsvReader (example_reader EOF)) = None
  /\ numProcessed (example_reader EOF) = 0.
Proof.
  destruct (ReadAndValidateHeader_takes_first_line example_validate
              (NewTSVInputReader [] (example_in EOF) 2).1
              (NewTSVInputReader [] (example_in EOF) 2).2)
    as (Hl & Hn & _); [by vm_compute|].
  split; [by vm_compute|]. split; [exact Hl | exact Hn].
Defined.

(** The header line of the worked example has one tab and gives two names. *)
Lemma ReadAndValidateHeader_field_names_witness :
  exists names,
    fields (example_reader EOF) = [] ++ names
    /\ length names = 2%nat.
Proof.
  destruct (ReadAndValidateHeader_field_names example_validate
              (NewTSVInputReader [] (example_in EOF) 2).1
              (NewTSVInputReader [] (example_in EOF) 2).2)
    as (names & Hf & Hlen & _); [by vm_compute|].
  exists names. split; [exact Hf|].
  rewrite Hlen. by vm_compute.
Defined.

(** A record with a CR LF ending converts like the record without it. *)
Lemma Convert_ignores_line_ending_witness :
  Convert Doc example_tokensToBSON
    {| TSVConverter.fields := [str "a"; str "b"];
       TSVConverter.data := (str "3" ++ [TAB] ++ str "4") ++ [CR; LF];
       TSVConverter.index := 1 |}
  = Convert Doc example_tokensToBSON
      {| TSVConverter.fields := [str "a"; str "b"];
         TSVConverter.data := str "3" ++ [TAB] ++ str "4";
         TSVConverter.index := 1 |}.
Proof.
  apply (Convert_ignores_line_ending Doc example_tokensToBSON).
  constructor; [by left|]. constructor; [by right|]. constructor.
Defined.

(** In the worked import the header is line 0 and the record of index 1 is
    line 2 of the stream. *)
Lemma header_line_is_not_a_record_witness :
  exists header,
    complete_records example_bytes !! 0%nat = Some header
    /\ complete_records example_bytes !! 2%nat
       = Some (TSVConverter.data example_record1)
    /\ TSVConverter.fields example_record1
       = [] ++ ((fun tok => TrimRight tok crlf) <$> Split header tokenSeparator)
    /\ TSVConverter.index example_record1 = Z.of_nat 1 mod 2 ^ 64.
Proof.
  apply (header_line_is_not_a_record Doc example_tokensToBSON example_validate true
           [] (example_in EOF) 2 (example_start EOF) (example_end EOF)
           example_schedule 1 example_record1);
    by vm_compute.
Defined.

(** The schedule of the worked import holds the 2 * 2 + 3 moves of the
    reading goroutine, which has ended. *)
Lemma StreamDocument_reader_terminates_witness :
  reader_moves example_schedule = 7%nat
  /\ pc Doc (example_end EOF) = PCDone.
Proof.
  split; [by vm_compute|].
  destruct (StreamDocument_reader_terminates Doc example_tokensToBSON true
              (example_reader EOF) (example_heap EOF) (example_start EOF)
              (example_end EOF) example_schedule)
    as (_ & Hdone & _); [by vm_compute..|].
  apply Hdone. by vm_compute.
Defined.

(** The header of the worked example read by a reader that already has the
    field id: the two names of the line come after it, CR and LF gone. *)
Definition example_prefilled : option goerror * TSVInputReader * Store :=
  ReadAndValidateHeader example_validate
    (NewTSVInputReader [str "id"] (example_in EOF) 2).1
    (NewTSVInputReader [str "id"] (example_in EOF) 2).2.

Lemma ReadAndValidateHeader_appends_fields_witness :
  fields example_prefilled.1.2 = [str "id"; str "a"; str "b"]
  /\ example_prefilled.1.1 = example_validate [str "id"; str "a"; str "b"]
  /\ numProcessed example_prefilled.1.2 = 0.
Proof.
  destruct (ReadAndValidateHeader_appends_fields example_validate
              (NewTSVInputReader [str "id"] (example_in EOF) 2).1
              (NewTSVInputReader [str "id"] (example_in EOF) 2).2)
    as (_ & _ & Hnum & _ & _ & Hok).
  destruct Hok as (Hfields & Hres & _); [by vm_compute|].
  split; [|split].
  - vm_compute in Hfields. vm_compute. exact Hfields.
  - vm_compute in Hres. vm_compute. exact Hres.
  - exact Hnum.
Defined.
